(** * cc-context-viewer: the streaming conversation context engine

    A shallow embedding of the server-side Context Store
    (server/src/services/context-store.ts), the Claude client adapter and
    the chat route (services/claude-client.ts, routes/chat.ts,
    services/streaming.ts), the parser worker's search index and height
    calculator (client parser worker) and the virtual window of the
    context viewer component, with the properties the specification states
    about them.

    Conventions of the embedding:
    - a JavaScript string is the list of its UTF-16 code units;
    - pixel counts are integers ([Z]); where the source computes with
      fractions (1.5 em line height, divisions before [Math.ceil]) the
      value is an exact rational ([Q]);
    - token counts are natural numbers ([N]), as the model API reports them;
    - [uuidv4()], [new Date()] and the model API are the environment: their
      results are arguments of the operations (or taken from an oracle
      indexed by a call counter);
    - objects that the source shares and mutates (block objects, the block
      array of a context) live in an explicit heap and are named by their
      address. *)

From Stdlib Require Import QArith Qround Lqa.
From stdpp Require Import base list numbers strings gmap.
Close Scope Q_scope.

(* ===================================================================== *)
(** * JavaScript strings *)
(* ===================================================================== *)

Module Js.

(** A string is its sequence of UTF-16 code units. *)
Abbreviation jsstring := (list N).

(** A string literal of the source, unit by unit. *)
Fixpoint lit (s : string) : jsstring :=
  match s with
  | EmptyString => []
  | String a r => Ascii.N_of_ascii a :: lit r
  end.

#[global] Arguments lit : simpl never.

(** The line feed, ['\n']. *)
Definition LF : N := 10%N.

(** [s.split(sep)] for a separator of one code unit: the pieces between
    the separators; never empty. *)
Fixpoint split (sep : N) (s : jsstring) : list jsstring :=
  match s with
  | [] => [[]]
  | c :: r =>
      if decide (c = sep) then [] :: split sep r
      else match split sep r with
           | [] => [[c]]
           | piece :: pieces => (c :: piece) :: pieces
           end
  end.

(** [s.match(/u/g)] for a pattern of one literal code unit: the array of
    the matches, or [null] when there is none. *)
Definition match_all (u : N) (s : jsstring) : option (list jsstring) :=
  match filter (λ c, c = u) s with
  | [] => None
  | ms => Some ((λ c, [c]) <$> ms)
  end.

(** Number of occurrences of a code unit. *)
Definition occurrences (u : N) (s : jsstring) : nat :=
  length (filter (λ c, c = u) s).

(** [Math.ceil] on an exact value. *)
Definition Math_ceil (q : Q) : Z := Qceiling q.

(** ** Lower-casing

    [String.prototype.toLowerCase] on the Basic Latin and Latin-1 ranges,
    and on U+0130 (LATIN CAPITAL LETTER I WITH DOT ABOVE), the one code
    point whose unconditional lower case is longer than itself: Unicode's
    SpecialCasing gives it the two units U+0069 U+0307.  Code units
    outside these ranges are left as they are. *)
Definition lower_unit (c : N) : jsstring :=
  if (65 <=? c)%N && (c <=? 90)%N then [(c + 32)%N]
  else if (192 <=? c)%N && (c <=? 222)%N && negb (c =? 215)%N then [(c + 32)%N]
  else if (c =? 304)%N then [105%N; 775%N]
  else [c].

Definition toLowerCase (s : jsstring) : jsstring :=
  concat (lower_unit <$> s).

(** ** Trimming *)

(** WhiteSpace and LineTerminator code units of ECMAScript. *)
Definition isWhiteSpace (c : N) : bool :=
  bool_decide (c ∈ [9; 10; 11; 12; 13; 32; 160; 5760; 8232; 8233; 8239;
                    8287; 12288; 65279]%N)
  || ((8192 <=? c)%N && (c <=? 8202)%N).

Fixpoint trimStart (s : jsstring) : jsstring :=
  match s with
  | [] => []
  | c :: r => if isWhiteSpace c then trimStart r else s
  end.

Definition trim (s : jsstring) : jsstring :=
  reverse (trimStart (reverse (trimStart s))).

(** ** Searching and slicing *)

Fixpoint startsWith (needle hay : jsstring) : bool :=
  match needle, hay with
  | [], _ => true
  | _ :: _, [] => false
  | a :: needle', b :: hay' => bool_decide (a = b) && startsWith needle' hay'
  end.

(** The first position of [needle] in [hay], positions counted from
    [pos]. *)
Fixpoint indexOf_from (needle hay : jsstring) (pos : nat) : option nat :=
  if startsWith needle hay then Some pos
  else match hay with
       | [] => None
       | _ :: hay' => indexOf_from needle hay' (S pos)
       end.

(** [hay.indexOf(needle, from)]; [None] is the source's [-1].  The start
    position is clamped to the length. *)
Definition indexOf (hay needle : jsstring) (from : nat) : option nat :=
  let k := from `min` length hay in
  indexOf_from needle (drop k hay) k.

(** [needle] occurs in [hay] at position [i]. *)
Definition occurs_at (needle hay : jsstring) (i : nat) : Prop :=
  startsWith needle (drop i hay) = true.

(** [s.substring(a, b)]: both ends clamped to the length, and swapped when
    out of order. *)
Definition substring (s : jsstring) (a b : nat) : jsstring :=
  let a' := a `min` length s in
  let b' := b `min` length s in
  take ((a' `max` b') - (a' `min` b')) (drop (a' `min` b') s).

End Js.

Import Js.

(* ===================================================================== *)
(** * Height estimation *)
(* ===================================================================== *)

Module Height.

(** [ContextStore.estimateHeight] (server). *)
Module Server.
Definition estimateHeight (content : jsstring) : Z :=
  let lineCount := Z.of_nat (length (split LF content)) in
  let avgCharsPerLine := 80%Z in
  let estimatedLines :=
    Z.max lineCount
      (Math_ceil (inject_Z (Z.of_nat (length content)) / inject_Z avgCharsPerLine)) in
  (* Assume ~24px per line + padding *)
  Z.max 60 (estimatedLines * 24 + 40).
End Server.

(** [HeightCalculator] of the parser worker (client). *)
Module Client.
Definition LINE_HEIGHT : Q := 3 # 2.       (* 1.5 em *)
Definition BASE_PADDING : Z := 32.
Definition HEADER_HEIGHT : Z := 28.
Definition CHARS_PER_LINE : Z := 100.

Definition estimateHeight (content : jsstring) (fontSize : Q) : Z :=
  let lineBreaks := Z.of_nat (length (default [] (match_all LF content))) in
  let charCount := Z.of_nat (length content) in
  let estimatedWrappedLines :=
    Math_ceil (inject_Z charCount / inject_Z CHARS_PER_LINE) in
  let totalLines := Z.max (lineBreaks + 1) estimatedWrappedLines in
  let lineHeightPx := (fontSize * LINE_HEIGHT)%Q in
  let contentHeight := (inject_Z totalLines * lineHeightPx)%Q in
  Math_ceil (contentHeight + inject_Z BASE_PADDING + inject_Z HEADER_HEIGHT)%Q.

(** [calculateHeights]: the record of heights, as the list of its
    entries in assignment order. *)
Definition calculateHeights (blocks : list (jsstring * jsstring)) (fontSize : Q)
  : list (jsstring * Z) :=
  (λ b, (b.1, estimateHeight b.2 fontSize)) <$> blocks.
End Client.

(** The heuristic in the specification's words:
    lines = max(explicit newline count, ceil(charCount / assumedColumns)),
    height = max(floor, lines * lineHeight + padding). *)
Definition spec_height (floor lineHeight padding assumedColumns : Z)
    (content : jsstring) : Z :=
  let lines :=
    Z.max (Z.of_nat (occurrences LF content))
      (Math_ceil (inject_Z (Z.of_nat (length content)) / inject_Z assumedColumns)) in
  Z.max floor (lines * lineHeight + padding).

End Height.

(* ===================================================================== *)
(** * The Context Store (server) *)
(* ===================================================================== *)

Module Store.

Inductive ContentType :=
| SYSTEM | TOOL_DEFINITION | USER | ASSISTANT_THINKING | ASSISTANT_TEXT
| TOOL_USE | TOOL_RESULT | ERROR.

(** The values a metadata property holds. *)
Inductive JsVal :=
| VUndefined
| VString (s : jsstring)
| VNumber (n : N).

(** [BlockMetadata], a plain object: property name to value.  A property
    that is present with the value [undefined] is a binding to
    [VUndefined]. *)
Abbreviation BlockMetadata := (gmap string JsVal).

(** [new Date().toISOString()]: a reading of the clock. *)
Abbreviation Time := N.

Record ContextBlock := mkBlock {
  block_id : jsstring;
  block_type : ContentType;
  content : jsstring;
  timestamp : Time;
  metadata : option BlockMetadata;
  isStreaming : bool;
  estimatedHeight : Z
}.

(** A tool definition, with the text [JSON.stringify(tool, null, 2)]
    gives for it. *)
Record ToolDefinition := mkTool {
  tool_name : jsstring;
  tool_description : jsstring;
  tool_json : jsstring
}.

(** Addresses of heap objects. *)
Abbreviation addr := nat.

(** A context object.  [blocks] is a reference to an array of references
    to block objects; the other properties hold values.  The two totals
    are numbers that nothing keeps from going below zero. *)
Record ConversationContext := mkContext {
  ctx_id : jsstring;
  createdAt : Time;
  updatedAt : Time;
  systemPrompt : option jsstring;
  tools : list ToolDefinition;
  blocks : addr;
  totalInputTokens : Z;
  totalOutputTokens : Z
}.

(** The store: its private context object, and the heap of the objects
    reachable from it or from a context it has handed out. *)
Record State := mkState {
  blockHeap : list ContextBlock;
  arrayHeap : list (list addr);
  context : ConversationContext
}.

(** What the environment gives to one block creation: the result of
    [uuidv4()] and the two clock readings. *)
Record Fresh := mkFresh {
  fresh_id : jsstring;
  stamp : Time;
  bump : Time
}.

(** ** Heap access *)

(** The references held by the block array of a context object. *)
Definition blockRefs (st : State) (c : ConversationContext) : list addr :=
  default [] (arrayHeap st !! blocks c).

(** The blocks a context object shows when it is read in state [st]. *)
Definition deref (st : State) (c : ConversationContext) : list ContextBlock :=
  omap (λ a, blockHeap st !! a) (blockRefs st c).

Definition set_updatedAt (now : Time) (c : ConversationContext) : ConversationContext :=
  mkContext (ctx_id c) (createdAt c) now (systemPrompt c) (tools c) (blocks c)
    (totalInputTokens c) (totalOutputTokens c).

(** [this.context.updatedAt = new Date().toISOString()] *)
Definition touch (now : Time) (st : State) : State :=
  mkState (blockHeap st) (arrayHeap st) (set_updatedAt now (context st)).

(** [this.context.blocks.push(block)] for a newly made block object. *)
Definition push_block (b : ContextBlock) (st : State) : State * addr :=
  let a := length (blockHeap st) in
  (mkState (blockHeap st ++ [b])
     (alter (λ arr, arr ++ [a]) (blocks (context st)) (arrayHeap st))
     (context st), a).

(** [this.context.blocks.find((b) => b.id === blockId)]: the first block
    of the array with that id. *)
Definition has_id (st : State) (blockId : jsstring) (a : addr) : Prop :=
  block_id <$> blockHeap st !! a = Some blockId.

#[global] Instance has_id_dec st blockId a : Decision (has_id st blockId a) :=
  decide (block_id <$> blockHeap st !! a = Some blockId).

Definition find_block (st : State) (blockId : jsstring) : option addr :=
  snd <$> list_find (has_id st blockId) (blockRefs st (context st)).

(** ** The operations *)

Definition createEmptyContext (uuid : jsstring) (now : Time)
    (arrays : list (list addr)) : ConversationContext * list (list addr) :=
  (mkContext uuid now now None [] (length arrays) 0%Z 0%Z, arrays ++ [[]]).

Definition constructor (uuid : jsstring) (now : Time) : State :=
  let '(c, arrays) := createEmptyContext uuid now [] in
  mkState [] arrays c.

(** [return { ...this.context }]: a new object with the same property
    values, the reference to the block array among them. *)
Definition getContext (st : State) : ConversationContext := context st.

(** [return [...this.context.blocks]]: a new array of the same
    references. *)
Definition getBlocks (st : State) : list addr := blockRefs st (context st).

Definition addBlock (e : Fresh) (ty : ContentType) (text : jsstring)
    (md : option BlockMetadata) (st : State) : State * addr :=
  let block :=
    mkBlock (fresh_id e) ty text (stamp e) md false
      (Height.Server.estimateHeight text) in
  let '(st', a) := push_block block st in
  (touch (bump e) st', a).

Definition setSystemPrompt (now : Time) (e : Fresh) (prompt : jsstring)
    (st : State) : State * addr :=
  let c := context st in
  let c' :=
    mkContext (ctx_id c) (createdAt c) now (Some prompt) (tools c) (blocks c)
      (totalInputTokens c) (totalOutputTokens c) in
  addBlock e SYSTEM prompt None (mkState (blockHeap st) (arrayHeap st) c').

(** [setTools]: every tool comes with what the environment gives to the
    creation of its block. *)
Definition setTools (now : Time) (ts : list (ToolDefinition * Fresh))
    (st : State) : State * list addr :=
  let c := context st in
  let c' :=
    mkContext (ctx_id c) (createdAt c) now (systemPrompt c) (ts.*1) (blocks c)
      (totalInputTokens c) (totalOutputTokens c) in
  foldl
    (λ acc te,
       let '(s, a) :=
         addBlock te.2 TOOL_DEFINITION (tool_json te.1)
           (Some {[ "toolName" := VString (tool_name te.1) ]}) acc.1 in
       (s, acc.2 ++ [a]))
    (mkState (blockHeap st) (arrayHeap st) c', []) ts.

Definition createStreamingBlock (e : Fresh) (ty : ContentType)
    (md : option BlockMetadata) (st : State) : State * addr :=
  let block := mkBlock (fresh_id e) ty [] (stamp e) md true 50 in
  let '(st', a) := push_block block st in
  (touch (bump e) st', a).

Definition append_content (delta : jsstring) (b : ContextBlock) : ContextBlock :=
  let text := content b ++ delta in
  mkBlock (block_id b) (block_type b) text (timestamp b) (metadata b)
    (isStreaming b) (Height.Server.estimateHeight text).

(** [null] is [None]. *)
Definition appendToBlock (now : Time) (blockId delta : jsstring)
    (st : State) : State * option addr :=
  match find_block st blockId with
  | None => (st, None)
  | Some a =>
      (touch now
         (mkState (alter (append_content delta) a (blockHeap st))
            (arrayHeap st) (context st)),
       Some a)
  end.

(** [{ ...block.metadata, ...metadata }]: the patch's properties win. *)
Definition merge_metadata (old : option BlockMetadata) (patch : BlockMetadata)
  : BlockMetadata :=
  patch ∪ default ∅ old.

Definition finalize (patch : option BlockMetadata) (b : ContextBlock) : ContextBlock :=
  mkBlock (block_id b) (block_type b) (content b) (timestamp b)
    (match patch with
     | Some p => Some (merge_metadata (metadata b) p)
     | None => metadata b
     end)
    false (estimatedHeight b).

Definition finalizeBlock (now : Time) (blockId : jsstring)
    (patch : option BlockMetadata) (st : State) : State * option addr :=
  match find_block st blockId with
  | None => (st, None)
  | Some a =>
      (touch now
         (mkState (alter (finalize patch) a (blockHeap st))
            (arrayHeap st) (context st)),
       Some a)
  end.

(** [this.context.totalInputTokens += inputTokens], and the same for the
    output: the arguments are numbers of either sign, added as they come. *)
Definition updateTokenUsage (now : Time) (inputTokens outputTokens : Z)
    (st : State) : State :=
  let c := context st in
  mkState (blockHeap st) (arrayHeap st)
    (mkContext (ctx_id c) (createdAt c) now (systemPrompt c) (tools c) (blocks c)
       (totalInputTokens c + inputTokens)%Z (totalOutputTokens c + outputTokens)%Z).

Definition clear (uuid : jsstring) (now : Time) (st : State) : State :=
  let '(c, arrays) := createEmptyContext uuid now (arrayHeap st) in
  mkState (blockHeap st) arrays c.

Definition getBlock (st : State) (blockId : jsstring) : option ContextBlock :=
  a ← find_block st blockId; blockHeap st !! a.

Definition getBlockCount (st : State) : nat :=
  length (blockRefs st (context st)).

(** ** Sequences of operations *)

Inductive StoreOp :=
| OpSetSystemPrompt (now : Time) (e : Fresh) (prompt : jsstring)
| OpSetTools (now : Time) (ts : list (ToolDefinition * Fresh))
| OpAddBlock (e : Fresh) (ty : ContentType) (text : jsstring)
    (md : option BlockMetadata)
| OpCreateStreamingBlock (e : Fresh) (ty : ContentType)
    (md : option BlockMetadata)
| OpAppendToBlock (now : Time) (blockId delta : jsstring)
| OpFinalizeBlock (now : Time) (blockId : jsstring)
    (patch : option BlockMetadata)
| OpUpdateTokenUsage (now : Time) (inputTokens outputTokens : Z)
| OpClear (uuid : jsstring) (now : Time).

Definition exec (op : StoreOp) (st : State) : State :=
  match op with
  | OpSetSystemPrompt now e prompt => (setSystemPrompt now e prompt st).1
  | OpSetTools now ts => (setTools now ts st).1
  | OpAddBlock e ty text md => (addBlock e ty text md st).1
  | OpCreateStreamingBlock e ty md => (createStreamingBlock e ty md st).1
  | OpAppendToBlock now blockId delta => (appendToBlock now blockId delta st).1
  | OpFinalizeBlock now blockId patch => (finalizeBlock now blockId patch st).1
  | OpUpdateTokenUsage now i o => updateTokenUsage now i o st
  | OpClear uuid now => clear uuid now st
  end.

Definition run (ops : list StoreOp) (st : State) : State :=
  foldl (λ s op, exec op s) st ops.

Definition is_clear (op : StoreOp) : bool :=
  match op with OpClear _ _ => true | _ => false end.

Definition is_append (op : StoreOp) : bool :=
  match op with OpAppendToBlock _ _ _ => true | _ => false end.

(** A sequence of [updateTokenUsage] calls, each given by its clock reading
    and its two counts. *)
Definition usage_ops (calls : list (Time * Z * Z)) : list StoreOp :=
  (λ c, OpUpdateTokenUsage c.1.1 c.1.2 c.2) <$> calls.

(** ** Relations between states, for the properties *)

(** [evolves R b b']: [b'] is a later state of the block object [b]: same
    id and type, a streaming flag that has not gone back to [true], and a
    content related to the old one by [R]. *)
Definition evolves (R : relation jsstring) (b b' : ContextBlock) : Prop :=
  block_id b' = block_id b
  ∧ block_type b' = block_type b
  ∧ (isStreaming b = false → isStreaming b' = false)
  ∧ R (content b) (content b').

Definition heap_evolves (R : relation jsstring) (h h' : list ContextBlock) : Prop :=
  ∀ a b, h !! a = Some b → ∃ b', h' !! a = Some b' ∧ evolves R b b'.

(** Equal but for the [updatedAt] of the context. *)
Definition same_but_updatedAt (s s' : State) : Prop :=
  blockHeap s = blockHeap s'
  ∧ arrayHeap s = arrayHeap s'
  ∧ ∀ t, set_updatedAt t (context s) = set_updatedAt t (context s').

(** The context object of [st'] has the block array of that of [st]. *)
Definition keeps_array (st st' : State) : Prop :=
  blocks (context st') = blocks (context st)
  ∧ length (arrayHeap st') = length (arrayHeap st).

(** The store's context refers to an allocated array. *)
Definition array_allocated (st : State) : Prop :=
  blocks (context st) < length (arrayHeap st).

(** ** Further views of a state, for the properties *)

(** The ids of the blocks of the store's context, in array order. *)
Definition block_ids (st : State) : list jsstring :=
  block_id <$> deref st (context st).

(** The store's context refers to an allocated array whose references are
    all allocated. *)
Definition context_ok (st : State) : Prop :=
  ∃ arr, arrayHeap st !! blocks (context st) = Some arr
         ∧ ∀ a, a ∈ arr → a < length (blockHeap st).

(** No block object has an estimated height above the estimate of its
    content. *)
Definition heights_bounded (h : list ContextBlock) : Prop :=
  ∀ a b, h !! a = Some b →
    (estimatedHeight b ≤ Height.Server.estimateHeight (content b))%Z.

(** From [h] to [h'] the heights stay so bounded, and none goes down. *)
Definition heights_grow (h h' : list ContextBlock) : Prop :=
  heights_bounded h →
  heights_bounded h'
  ∧ ∀ a b, h !! a = Some b →
      ∃ b', h' !! a = Some b' ∧ (estimatedHeight b ≤ estimatedHeight b')%Z.

(** The ids that [uuidv4()] gives to the blocks an operation creates. *)
Definition op_fresh_ids (op : StoreOp) : list jsstring :=
  match op with
  | OpSetSystemPrompt _ e _ => [fresh_id e]
  | OpSetTools _ ts => (λ te, fresh_id te.2) <$> ts
  | OpAddBlock e _ _ _ => [fresh_id e]
  | OpCreateStreamingBlock e _ _ => [fresh_id e]
  | _ => []
  end.

(** The ids of the context after an operation, from those before it. *)
Definition ids_after (ids : list jsstring) (op : StoreOp) : list jsstring :=
  if is_clear op then [] else ids ++ op_fresh_ids op.

(** A delta for a block: content to append, or the end of the block. *)
Inductive BlockDelta :=
| Appended (now : Time) (blockId delta : jsstring)
| Finalized (now : Time) (blockId : jsstring) (patch : option BlockMetadata).

Definition delta_op (d : BlockDelta) : StoreOp :=
  match d with
  | Appended now blockId delta => OpAppendToBlock now blockId delta
  | Finalized now blockId patch => OpFinalizeBlock now blockId patch
  end.

(** ** HTML export: [escapeHtml] *)

(** [s.replace(/u/g, by)] for a pattern of one literal code unit. *)
Definition replaceAll (u : N) (by_ : jsstring) (s : jsstring) : jsstring :=
  concat ((λ c, if decide (c = u) then by_ else [c]) <$> s).

Definition escapeHtml (text : jsstring) : jsstring :=
  replaceAll 39 (lit "&#039;")
    (replaceAll 34 (lit "&quot;")
       (replaceAll 62 (lit "&gt;")
          (replaceAll 60 (lit "&lt;")
             (replaceAll 38 (lit "&amp;") text)))).

(** The entity that stands for one code unit, or the unit itself. *)
Definition escape_unit (c : N) : jsstring :=
  if decide (c = 38%N) then lit "&amp;"
  else if decide (c = 60%N) then lit "&lt;"
  else if decide (c = 62%N) then lit "&gt;"
  else if decide (c = 34%N) then lit "&quot;"
  else if decide (c = 39%N) then lit "&#039;"
  else [c].

End Store.


(* ===================================================================== *)
(** * The search index of the parser worker *)
(* ===================================================================== *)

(** A [Map] with string keys: its entries in insertion order, no key
    twice. *)
Module JsMap.

Definition get {V} (k : jsstring) (m : list (jsstring * V)) : option V :=
  (λ r, r.2.2) <$> list_find (λ kv, kv.1 = k) m.

(** [m.set(k, v)]: an existing key keeps its place. *)
Fixpoint set {V} (k : jsstring) (v : V) (m : list (jsstring * V))
  : list (jsstring * V) :=
  match m with
  | [] => [(k, v)]
  | kv :: r => if decide (kv.1 = k) then (k, v) :: r else kv :: set k v r
  end.

Definition delete {V} (k : jsstring) (m : list (jsstring * V))
  : list (jsstring * V) :=
  filter (λ kv, kv.1 ≠ k) m.

End JsMap.

Module Search.

Record SearchMatch := mkMatch {
  blockId : jsstring;
  startIndex : nat;
  endIndex : nat;
  text : jsstring
}.

Record IndexEntry := mkEntry {
  entry_blockId : jsstring;
  positions : list nat
}.

Record SearchIndex := mkIndex {
  index : list (jsstring * list IndexEntry);
  blockContents : list (jsstring * jsstring)
}.

Definition empty : SearchIndex := mkIndex [] [].

(** The class [\w]. *)
Definition isWordChar (c : N) : bool :=
  ((48 <=? c)%N && (c <=? 57)%N) || ((65 <=? c)%N && (c <=? 90)%N)
  || (c =? 95)%N || ((97 <=? c)%N && (c <=? 122)%N).

(** The matches of [/\b\w+\b/g]: the maximal runs of word characters, each
    with the position of its first unit.  [word] is the run being read and
    [start] where it began. *)
Fixpoint tokenize_from (s : jsstring) (pos : nat) (word : jsstring) (start : nat)
  : list (jsstring * nat) :=
  match s with
  | [] => match word with [] => [] | _ => [(word, start)] end
  | c :: r =>
      if isWordChar c
      then tokenize_from r (S pos) (word ++ [c])
             (match word with [] => pos | _ => start end)
      else match word with [] => [] | _ => [(word, start)] end
             ++ tokenize_from r (S pos) [] (S pos)
  end.

Definition tokenize (s : jsstring) : list (jsstring * nat) :=
  tokenize_from s 0 [] 0.

Definition removeBlock (id : jsstring) (si : SearchIndex) : SearchIndex :=
  mkIndex
    (foldl
       (λ idx we,
          let filtered := filter (λ e, entry_blockId e ≠ id) we.2 in
          if decide (length filtered = 0) then JsMap.delete we.1 idx
          else if decide (length filtered ≠ length we.2)
               then JsMap.set we.1 filtered idx
               else idx)
       (index si) (index si))
    (JsMap.delete id (blockContents si)).

(** One round of the loop of [indexBlock]. *)
Definition add_posting (id : jsstring) (idx : list (jsstring * list IndexEntry))
    (wp : jsstring * nat) : list (jsstring * list IndexEntry) :=
  let entries := default [] (JsMap.get wp.1 idx) in
  match list_find (λ e, entry_blockId e = id) entries with
  | Some (i, _) =>
      (* existingEntry.positions.push(position), on the entry the map holds *)
      JsMap.set wp.1
        (alter (λ e, mkEntry (entry_blockId e) (positions e ++ [wp.2])) i entries)
        idx
  | None => JsMap.set wp.1 (entries ++ [mkEntry id [wp.2]]) idx
  end.

Definition indexBlock (id text : jsstring) (si : SearchIndex) : SearchIndex :=
  let si1 := removeBlock id si in
  let contents := JsMap.set id text (blockContents si1) in
  let normalizedContent := toLowerCase text in
  let words := tokenize normalizedContent in
  mkIndex (foldl (add_posting id) (index si1) words) contents.

Definition clear (si : SearchIndex) : SearchIndex := empty.

(** The [while] loop of [search] over one block; every round moves
    [searchStart] forward, and [fuel] bounds the number of rounds. *)
Fixpoint scan (fuel : nat) (id text normalizedContent normalizedQuery : jsstring)
    (queryLength searchStart : nat) : list SearchMatch :=
  match fuel with
  | 0 => []
  | S fuel' =>
      if decide (searchStart < length normalizedContent) then
        match indexOf normalizedContent normalizedQuery searchStart with
        | None => []
        | Some i =>
            mkMatch id i (i + queryLength) (substring text i (i + queryLength))
            :: scan fuel' id text normalizedContent normalizedQuery
                 queryLength (i + 1)
        end
      else []
  end.

Definition search_block (query : jsstring) (entry : jsstring * jsstring)
  : list SearchMatch :=
  let normalizedContent := toLowerCase entry.2 in
  scan (length normalizedContent) entry.1 entry.2 normalizedContent
    (toLowerCase query) (length query) 0.

Definition search (query : jsstring) (si : SearchIndex) : list SearchMatch :=
  if decide (trim query = []) then []
  else blockContents si ≫= search_block query.

(** What the loop reports for the occurrence at [i]. *)
Definition match_at (id text : jsstring) (queryLength i : nat) : SearchMatch :=
  mkMatch id i (i + queryLength) (substring text i (i + queryLength)).

(** ** Views of the index, for the properties *)

(** [w] is a maximal run of word characters of [s] that starts at [p]. *)
Definition is_token (s w : jsstring) (p : nat) : Prop :=
  w ≠ [] ∧ Forall (λ c, isWordChar c = true) w
  ∧ ∃ pre post, s = pre ++ w ++ post ∧ length pre = p
      ∧ from_option isWordChar false (last pre) = false
      ∧ from_option isWordChar false (head post) = false.

(** The positions an entry list holds for a block. *)
Definition entry_positions (id : jsstring) (entries : list IndexEntry) : list nat :=
  from_option (λ r, positions r.2) []
    (list_find (λ e, entry_blockId e = id) entries).

(** The positions the index holds for a word in a block. *)
Definition postings (idx : list (jsstring * list IndexEntry))
    (word id : jsstring) : list nat :=
  entry_positions id (default [] (JsMap.get word idx)).

(** Where the words of a text that equal [word] start, in order. *)
Definition word_positions (word text : jsstring) : list nat :=
  (filter (λ wp, wp.1 = word) (tokenize (toLowerCase text))).*2.

(** What is left of the entries of a word when a block goes. *)
Definition without (id : jsstring) (we : jsstring * list IndexEntry)
  : option (jsstring * list IndexEntry) :=
  let filtered := filter (λ e, entry_blockId e ≠ id) we.2 in
  if decide (filtered = []) then None else Some (we.1, filtered).

(** The operations of the index, as the worker's messages reach it. *)
Inductive IndexOp :=
| OpIndexBlock (id text : jsstring)
| OpRemoveBlock (id : jsstring)
| OpClear.

Definition exec (op : IndexOp) (si : SearchIndex) : SearchIndex :=
  match op with
  | OpIndexBlock id text => indexBlock id text si
  | OpRemoveBlock id => removeBlock id si
  | OpClear => clear si
  end.

Definition run (ops : list IndexOp) (si : SearchIndex) : SearchIndex :=
  foldl (λ s op, exec op s) si ops.

End Search.

(* ===================================================================== *)
(** * The virtual window of the context viewer *)
(* ===================================================================== *)

Module VirtualWindow.

Definition ITEM_HEIGHT_ESTIMATE : Z := 100.
Definition OVERSCAN : Z := 5.

Definition Math_floor (q : Q) : Z := Qfloor q.

Definition startIndex (scrollTop : Z) : Z :=
  Z.max 0
    (Math_floor (inject_Z scrollTop / inject_Z ITEM_HEIGHT_ESTIMATE) - OVERSCAN).

Definition endIndex (blocks_length scrollTop viewportHeight : Z) : Z :=
  Z.min blocks_length
    (Math_ceil (inject_Z (scrollTop + viewportHeight) / inject_Z ITEM_HEIGHT_ESTIMATE)
     + OVERSCAN).

(** [blocks.slice(startIndex, endIndex)] for indices that are not
    negative. *)
Definition slice {A} (l : list A) (from to : Z) : list A :=
  take (Z.to_nat to - Z.to_nat from) (drop (Z.to_nat from) l).

Definition visibleBlocks {A} (blocks : list A) (scrollTop viewportHeight : Z)
  : list A :=
  slice blocks (startIndex scrollTop)
    (endIndex (Z.of_nat (length blocks)) scrollTop viewportHeight).

Definition topPadding (scrollTop : Z) : Z :=
  startIndex scrollTop * ITEM_HEIGHT_ESTIMATE.

Definition bottomPadding (blocks_length scrollTop viewportHeight : Z) : Z :=
  Z.max 0
    ((blocks_length - endIndex blocks_length scrollTop viewportHeight)
     * ITEM_HEIGHT_ESTIMATE).

Definition totalHeight (blocks_length : Z) : Z :=
  blocks_length * ITEM_HEIGHT_ESTIMATE.

(** ** The layout the specification speaks of: blocks stacked in order,
    each as high as its estimated height. *)

(** Offset of the top edge of block [i]. *)
Definition top (heights : list Z) (i : nat) : Z :=
  foldr Z.add 0%Z (take i heights).

(** Block [i] meets the viewport [[scrollTop, scrollTop + viewportHeight)]. *)
Definition intersects (heights : list Z) (scrollTop viewportHeight : Z)
    (i : nat) : Prop :=
  i < length heights
  ∧ (top heights i < scrollTop + viewportHeight)%Z
  ∧ (scrollTop < top heights (S i))%Z.

(** Index [i] lies in the rendered range. *)
Definition in_range (heights : list Z) (scrollTop viewportHeight : Z)
    (i : nat) : Prop :=
  (startIndex scrollTop ≤ Z.of_nat i
   < endIndex (Z.of_nat (length heights)) scrollTop viewportHeight)%Z.

(** The layout stays within the overscan margin of the uniform one: no top
    edge more than [OVERSCAN] items above the uniform estimate, no bottom
    edge more than [OVERSCAN] items below it. *)
Definition near_uniform (heights : list Z) : Prop :=
  ∀ i, i < length heights →
    ((Z.of_nat i - OVERSCAN) * ITEM_HEIGHT_ESTIMATE ≤ top heights i
     ∧ top heights (S i) ≤ (Z.of_nat i + 1 + OVERSCAN) * ITEM_HEIGHT_ESTIMATE)%Z.

End VirtualWindow.

(* ===================================================================== *)
(** * Server-sent events (services/streaming.ts) *)
(* ===================================================================== *)

Module Sse.

Inductive SSEEventType :=
| connected | message_start | content_block_start | content_block_delta
| content_block_stop | message_delta | message_stop | tool_result | error.

(** The data of an event. *)
Inductive Data :=
| DConnected
| DMessageStart (messageId model : jsstring)
| DContentBlockStart (blockId : jsstring) (blockType : Store.ContentType)
    (toolName toolId : option jsstring)
| DContentBlockDelta (blockId delta : jsstring)
| DContentBlockStop (blockId : jsstring)
| DMessageStop (messageId stopReason : jsstring) (inputTokens outputTokens : N)
| DToolResult (toolId toolName result : jsstring)
| DError (message : jsstring) (code : option jsstring).

(** What has gone out on a response: events, and [res.end()]. *)
Inductive Output :=
| Event (ty : SSEEventType) (data : Data)
| End_.

(** The response object of one request.  The heartbeat timer only writes
    comment lines; of it the model keeps whether it is running. *)
Record Response := mkResponse {
  writableEnded : bool;
  written : list Output;
  heartbeat : bool
}.

Definition sendSSE (ty : SSEEventType) (data : Data) (res : Response) : Response :=
  mkResponse (writableEnded res) (written res ++ [Event ty data]) (heartbeat res).

Definition closeSSE (res : Response) : Response :=
  if writableEnded res then res
  else mkResponse true (written res ++ [End_]) (heartbeat res).

Definition stopHeartbeat (res : Response) : Response :=
  mkResponse (writableEnded res) (written res) false.

(** [createSSEHandler(res)]: the headers are sent and the heartbeat
    started.  Its [send] and [close] follow. *)
Definition createSSEHandler : Response := mkResponse false [] true.

Definition send (ty : SSEEventType) (data : Data) (res : Response) : Response :=
  if writableEnded res then res else sendSSE ty data res.

Definition close (res : Response) : Response :=
  closeSSE (stopHeartbeat res).

Definition is_end (o : Output) : bool :=
  match o with End_ => true | Event _ _ => false end.

(** Number of terminal signals on a response. *)
Definition closes (res : Response) : nat :=
  length (filter (λ o, is_end o) (written res)).

Definition no_end (evs : list Output) : Prop :=
  Forall (λ o, is_end o = false) evs.

(** [res'] continues the response [res]: it is open, and has the output of
    [res] followed by events. *)
Definition continues (res res' : Response) : Prop :=
  writableEnded res' = false
  ∧ ∃ evs, written res' = written res ++ evs ∧ no_end evs.

(** A call of the handler of a response. *)
Inductive Action :=
| Send (ty : SSEEventType) (data : Data)
| Close.

Definition act (res : Response) (a : Action) : Response :=
  match a with
  | Send ty data => send ty data res
  | Close => close res
  end.

Definition is_close (a : Action) : bool :=
  match a with Close => true | Send _ _ => false end.

(** A response on which the end, if any, is the last output. *)
Definition tidy (res : Response) : Prop :=
  if writableEnded res
  then ∃ evs, written res = evs ++ [End_] ∧ no_end evs
  else no_end (written res).

(** The ids of the blocks that the [content_block_start] events among some
    output announce. *)
Definition started (out : list Output) : list jsstring :=
  omap (λ o, match o with
             | Event _ (DContentBlockStart id _ _ _) => Some id
             | _ => None
             end) out.

End Sse.

(* ===================================================================== *)
(** * The Claude client and the chat route *)
(* ===================================================================== *)

Module Chat.

Inductive ApiMode := direct | proxy | unconfigured.

Inductive Role := user | assistant.

(** A content block of a final message. *)
Inductive ApiContentBlock :=
| CText (text : jsstring)
| CToolUse (id name input : jsstring)
| COther.

Inductive MessageContent :=
| MString (s : jsstring)
| MBlocks (bs : list ApiContentBlock)
| MToolResults (rs : list (jsstring * jsstring)).

Record MessageParam := mkMessage {
  role : Role;
  body : MessageContent
}.

(** ** The model session: what the SDK's stream delivers *)

Inductive StartKind :=
| SkToolUse (name id : jsstring)
| SkThinking
| SkOther.

Inductive Delta :=
| text_delta (text : jsstring)
| thinking_delta (thinking : jsstring)
| input_json_delta (partial_json : jsstring)
| other_delta.

Inductive RawEvent :=
| content_block_start (index : nat) (content_block : StartKind)
| content_block_delta (index : nat) (delta : Delta)
| content_block_stop (index : nat)
| other_event.

(** A call of a listener: [stream.on('message')] or
    [stream.on('streamEvent')]. *)
Inductive Emission :=
| OnMessage (id model : jsstring)
| OnStreamEvent (event : RawEvent).

Record FinalMessage := mkFinal {
  final_id : jsstring;
  stop_reason : option jsstring;
  input_tokens : N;
  output_tokens : N;
  final_content : list ApiContentBlock
}.

(** One request to the model: the listener calls it makes, and how
    [stream.finalMessage()] settles: with the final message, with an error,
    or not yet. *)
Inductive Turn :=
| Completes (emissions : list Emission) (final : FinalMessage)
| Fails (emissions : list Emission) (message : jsstring) (code : option jsstring)
| Pending (emissions : list Emission).

(** The environment: [uuidv4()], the clock and the tools, each asked with
    the number of the call. *)
Record Env := mkEnv {
  uuidv4 : nat → jsstring;
  clock : nat → N;
  executeTool : nat → jsstring → jsstring → jsstring
}.

(** The process: the context store, the client's fields, the number of
    calls made to the environment, and the number of requests to the model
    that are under way. *)
Record Server := mkServer {
  store : Store.State;
  messages : list MessageParam;
  client_systemPrompt : jsstring;
  client_tools : list Store.ToolDefinition;
  apiMode : ApiMode;
  tick : nat;
  inFlight : nat
}.

(** The variables of one call of [sendMessage]. *)
Record Locals := mkLocals {
  currentBlockId : option jsstring;
  messageId : option jsstring;
  blockMap : gmap nat jsstring
}.

Definition fresh (env : Env) (k : nat) : Store.Fresh :=
  Store.mkFresh (uuidv4 env k) (clock env k) (clock env k).

(** A string as a condition: the empty string and [undefined] are
    falsy. *)
Definition truthy (o : option jsstring) : option jsstring :=
  match o with
  | Some (c :: r) => Some (c :: r)
  | _ => None
  end.

Definition opt_val (o : option jsstring) : Store.JsVal :=
  match o with
  | Some s => Store.VString s
  | None => Store.VUndefined
  end.

Definition with_store (st : Store.State) (k : nat) (sv : Server) : Server :=
  mkServer st (messages sv) (client_systemPrompt sv) (client_tools sv)
    (apiMode sv) (tick sv + k) (inFlight sv).

Definition push_message (m : MessageParam) (sv : Server) : Server :=
  mkServer (store sv) (messages sv ++ [m]) (client_systemPrompt sv)
    (client_tools sv) (apiMode sv) (tick sv) (inFlight sv).

Definition set_inFlight (n : nat) (sv : Server) : Server :=
  mkServer (store sv) (messages sv) (client_systemPrompt sv)
    (client_tools sv) (apiMode sv) (tick sv) n.

(** ** The callbacks of the chat route *)

Definition onMessageStart (messageId model : jsstring) (res : Sse.Response) :=
  Sse.send Sse.message_start (Sse.DMessageStart messageId model) res.

Definition onContentBlockStart (blockId : jsstring) (blockType : Store.ContentType)
    (toolName toolId : option jsstring) (res : Sse.Response) :=
  Sse.send Sse.content_block_start
    (Sse.DContentBlockStart blockId blockType toolName toolId) res.

Definition onContentBlockDelta (blockId delta : jsstring) (res : Sse.Response) :=
  Sse.send Sse.content_block_delta (Sse.DContentBlockDelta blockId delta) res.

Definition onContentBlockStop (blockId : jsstring) (res : Sse.Response) :=
  Sse.send Sse.content_block_stop (Sse.DContentBlockStop blockId) res.

Definition onMessageStop (messageId stopReason : jsstring)
    (inputTokens outputTokens : N) (res : Sse.Response) :=
  let res1 :=
    Sse.send Sse.message_stop
      (Sse.DMessageStop messageId stopReason inputTokens outputTokens) res in
  (* Only close SSE if this is the final message (not continuing with tool use) *)
  if decide (stopReason ≠ lit "tool_use") then Sse.close res1 else res1.

Definition onToolResult (toolId toolName result : jsstring) (res : Sse.Response) :=
  Sse.send Sse.tool_result (Sse.DToolResult toolId toolName result) res.

Definition onError (message : jsstring) (code : option jsstring)
    (res : Sse.Response) :=
  Sse.close (Sse.send Sse.error (Sse.DError message code) res).

(** ** The listeners of [sendMessage] *)

Definition on_stream_event (env : Env) (event : RawEvent)
    (x : Locals * Server * Sse.Response) : Locals * Server * Sse.Response :=
  let '(loc, sv, res) := x in
  match event with
  | content_block_start idx cb =>
      let '(blockType, toolName, toolId) :=
        match cb with
        | SkToolUse name id => (Store.TOOL_USE, Some name, Some id)
        | SkThinking => (Store.ASSISTANT_THINKING, None, None)
        | SkOther => (Store.ASSISTANT_TEXT, None, None)
        end in
      let e := fresh env (tick sv) in
      let md : Store.BlockMetadata :=
        {[ "toolName" := opt_val toolName;
           "toolId" := opt_val toolId;
           "messageId" := opt_val (truthy (messageId loc)) ]} in
      let st := (Store.createStreamingBlock e blockType (Some md) (store sv)).1 in
      let id := Store.fresh_id e in
      (mkLocals (Some id) (messageId loc) (<[idx := id]> (blockMap loc)),
       with_store st 1 sv,
       onContentBlockStart id blockType toolName toolId res)
  | content_block_delta idx d =>
      match truthy (blockMap loc !! idx) with
      | None => x
      | Some id =>
          let delta :=
            match d with
            | text_delta t => t
            | thinking_delta t => t
            | input_json_delta t => t
            | other_delta => []
            end in
          match delta with
          | [] => x
          | _ =>
              let st := (Store.appendToBlock (clock env (tick sv)) id delta (store sv)).1 in
              (loc, with_store st 1 sv, onContentBlockDelta id delta res)
          end
      end
  | content_block_stop idx =>
      match truthy (blockMap loc !! idx) with
      | None => x
      | Some id =>
          let st := (Store.finalizeBlock (clock env (tick sv)) id None (store sv)).1 in
          (loc, with_store st 1 sv, onContentBlockStop id res)
      end
  | other_event => x
  end.

Definition on_emission (env : Env) (x : Locals * Server * Sse.Response)
    (em : Emission) : Locals * Server * Sse.Response :=
  match em with
  | OnMessage id model =>
      let '(loc, sv, res) := x in
      (mkLocals (currentBlockId loc) (Some id) (blockMap loc), sv,
       onMessageStart id model res)
  | OnStreamEvent event => on_stream_event env event x
  end.

Definition deliver (env : Env) (ems : list Emission) (sv : Server)
    (res : Sse.Response) : Server * Sse.Response :=
  let '(_, sv', res') := foldl (on_emission env) (mkLocals None None ∅, sv, res) ems in
  (sv', res').

(** ** [handleToolUse]

    [continue] is the call [this.sendMessage('', callbacks)] at its end. *)
Definition run_tool (env : Env) (x : Server * Sse.Response * list (jsstring * jsstring))
    (b : ApiContentBlock) : Server * Sse.Response * list (jsstring * jsstring) :=
  match b with
  | CToolUse id name input =>
      let '(sv, res, toolResults) := x in
      let result := executeTool env (tick sv) name input in
      let md : Store.BlockMetadata :=
        {[ "toolName" := Store.VString name; "toolId" := Store.VString id ]} in
      let st :=
        (Store.addBlock (fresh env (tick sv + 1)) Store.TOOL_RESULT result
           (Some md) (store sv)).1 in
      (with_store st 2 sv, onToolResult id name result res,
       toolResults ++ [(id, result)])
  | _ => x
  end.

Definition handleToolUse (env : Env)
    (continue : jsstring → Server → Sse.Response → Server * Sse.Response)
    (blocks : list ApiContentBlock) (sv : Server) (res : Sse.Response)
  : Server * Sse.Response :=
  let '(sv1, res1, toolResults) := foldl (run_tool env) (sv, res, []) blocks in
  let sv2 := push_message (mkMessage user (MToolResults toolResults)) sv1 in
  continue [] sv2 res1.

(** ** [sendMessage]

    [script] is what the model does with the requests from this call on:
    its head for the request of this call, its tail for the requests of the
    continuation after tool use.  With no turn left the request stays
    unanswered. *)
Fixpoint sendMessage (env : Env) (script : list Turn) (userMessage : jsstring)
    (sv : Server) (res : Sse.Response) : Server * Sse.Response :=
  (* Add user message to context, and to the conversation history *)
  let st0 :=
    (Store.addBlock (fresh env (tick sv)) Store.USER userMessage None (store sv)).1 in
  let sv0 := push_message (mkMessage user (MString userMessage)) (with_store st0 1 sv) in
  (* this.client.messages.stream(streamParams) *)
  let sv1 := set_inFlight (S (inFlight sv0)) sv0 in
  match script with
  | [] => (sv1, res)
  | Pending ems :: _ => deliver env ems sv1 res
  | Fails ems message code :: _ =>
      let '(sv2, res2) := deliver env ems sv1 res in
      let sv3 := set_inFlight (pred (inFlight sv2)) sv2 in
      let st :=
        (Store.addBlock (fresh env (tick sv3)) Store.ERROR message None (store sv3)).1 in
      (with_store st 1 sv3, onError message code res2)
  | Completes ems final :: rest =>
      let '(sv2, res2) := deliver env ems sv1 res in
      let sv3 := set_inFlight (pred (inFlight sv2)) sv2 in
      let st :=
        Store.updateTokenUsage (clock env (tick sv3))
          (Z.of_N (input_tokens final)) (Z.of_N (output_tokens final))
          (store sv3) in
      let sv4 := with_store st 1 sv3 in
      let res4 :=
        onMessageStop (final_id final)
          (default (lit "end_turn") (truthy (stop_reason final)))
          (input_tokens final) (output_tokens final) res2 in
      let sv5 := push_message (mkMessage assistant (MBlocks (final_content final))) sv4 in
      if decide (stop_reason final = Some (lit "tool_use"))
      then handleToolUse env (sendMessage env rest) (final_content final) sv5 res4
      else (sv5, res4)
  end.

(** ** The client's other methods *)

Definition isConfigured (sv : Server) : bool :=
  match apiMode sv with unconfigured => false | _ => true end.

(** [initialize()] with no arguments. *)
Definition initialize (env : Env) (sv : Server) : Server :=
  let k := tick sv in
  let st1 :=
    (Store.setSystemPrompt (clock env k) (fresh env (k + 1))
       (client_systemPrompt sv) (store sv)).1 in
  let ts := imap (λ i t, (t, fresh env (k + 3 + i))) (client_tools sv) in
  let st2 := (Store.setTools (clock env (k + 2)) ts st1).1 in
  with_store st2 (3 + length (client_tools sv)) sv.

Definition setSystemPrompt (env : Env) (prompt : jsstring) (sv : Server) : Server :=
  let st := Store.clear (uuidv4 env (tick sv)) (clock env (tick sv)) (store sv) in
  initialize env
    (mkServer st (messages sv) prompt (client_tools sv) (apiMode sv)
       (tick sv + 1) (inFlight sv)).

(** ** [POST /api/chat] *)

Record ChatRequest := mkRequest {
  message : option jsstring;        (* [None]: absent, or not a string *)
  systemPrompt : option jsstring
}.

Inductive HttpResponse :=
| JsonError (status : nat) (error : jsstring)
| EventStream (res : Sse.Response).

Definition post (env : Env) (script : list Turn) (req : ChatRequest)
    (sv : Server) : Server * HttpResponse :=
  match truthy (message req) with
  | None => (sv, JsonError 400 (lit "Message is required"))
  | Some msg =>
      if isConfigured sv then
        let sv1 :=
          match truthy (systemPrompt req) with
          | Some prompt => setSystemPrompt env prompt sv
          | None => sv
          end in
        let res := Sse.send Sse.connected Sse.DConnected Sse.createSSEHandler in
        let '(sv2, res2) := sendMessage env script msg sv1 res in
        (sv2, EventStream res2)
      else (sv, JsonError 500 (lit "ANTHROPIC_API_KEY not configured"))
  end.

(** The [message_stop] event of a final message. *)
Definition stop_event (final : FinalMessage) : Sse.Output :=
  Sse.Event Sse.message_stop
    (Sse.DMessageStop (final_id final)
       (default (lit "end_turn") (truthy (stop_reason final)))
       (input_tokens final) (output_tokens final)).

(** ** The client's other methods, and the context routes *)

(** [initialize(systemPrompt, tools)]: an argument that is absent (or, for
    the prompt, empty) leaves the client's field as it is. *)
Definition initialize_with (env : Env) (prompt : option jsstring)
    (tools : option (list Store.ToolDefinition)) (sv : Server) : Server :=
  initialize env
    (mkServer (store sv) (messages sv)
       (default (client_systemPrompt sv) (truthy prompt))
       (default (client_tools sv) tools)
       (apiMode sv) (tick sv) (inFlight sv)).

(** [ClaudeClient.clear()] *)
Definition clear (env : Env) (sv : Server) : Server :=
  let st := Store.clear (uuidv4 env (tick sv)) (clock env (tick sv)) (store sv) in
  initialize env
    (mkServer st [] (client_systemPrompt sv) (client_tools sv) (apiMode sv)
       (tick sv + 1) (inFlight sv)).

(** [DELETE /api/context]: the new context is part of the answer. *)
Definition delete_context (env : Env) (sv : Server)
  : Server * Store.ConversationContext :=
  let sv' := clear env sv in
  (sv', Store.getContext (store sv')).

(** [POST /api/context/initialize] *)
Definition post_initialize (env : Env) (prompt : option jsstring)
    (tools : option (list Store.ToolDefinition)) (sv : Server)
  : Server * Store.ConversationContext :=
  let sv' := initialize_with env prompt tools (clear env sv) in
  (sv', Store.getContext (store sv')).

(** ** Views of a state and of a script, for the properties *)

(** Type, content and streaming flag of the blocks of the store's
    context. *)
Definition shown (sv : Server) : list (Store.ContentType * jsstring * bool) :=
  (λ b, (Store.block_type b, Store.content b, Store.isStreaming b))
  <$> Store.deref (store sv) (Store.context (store sv)).

(** The blocks that [initialize] adds for a prompt and a list of tools. *)
Definition initial_blocks (prompt : jsstring) (tools : list Store.ToolDefinition)
  : list (Store.ContentType * jsstring * bool) :=
  (Store.SYSTEM, prompt, false)
  :: ((λ t, (Store.TOOL_DEFINITION, Store.tool_json t, false)) <$> tools).

Definition asks_for_tools (final : FinalMessage) : bool :=
  bool_decide (stop_reason final = Some (lit "tool_use")).

(** The exchange reaches its end: a turn completes without asking for
    tools, or fails. *)
Fixpoint settles (script : list Turn) : bool :=
  match script with
  | Completes _ final :: rest =>
      if asks_for_tools final then settles rest else true
  | Fails _ _ _ :: _ => true
  | _ => false
  end.

(** The failure that ends the exchange, if one does. *)
Fixpoint failure (script : list Turn) : option (jsstring * option jsstring) :=
  match script with
  | Completes _ final :: rest =>
      if asks_for_tools final then failure rest else None
  | Fails _ message code :: _ => Some (message, code)
  | _ => None
  end.

(** The usage of the turns of the exchange that complete. *)
Fixpoint usage (script : list Turn) : N * N :=
  match script with
  | Completes _ final :: rest =>
      let rest_usage := if asks_for_tools final then usage rest else (0, 0)%N in
      (input_tokens final + rest_usage.1, output_tokens final + rest_usage.2)%N
  | _ => (0, 0)%N
  end.

(** The roles of the messages that the exchange adds to the history. *)
Fixpoint roles (script : list Turn) : list Role :=
  match script with
  | Completes _ final :: rest =>
      [user; assistant]
      ++ (if asks_for_tools final then user :: roles rest else [])
  | _ => [user]
  end.

(** The number of continuations after tool use. *)
Fixpoint continuations (script : list Turn) : nat :=
  match script with
  | Completes _ final :: rest =>
      if asks_for_tools final then S (continuations rest) else 0
  | _ => 0
  end.

(** The texts of the history's messages whose content is a string. *)
Definition strings (ms : list MessageParam) : list jsstring :=
  omap (λ m, match body m with MString s => Some s | _ => None end) ms.

(** The number of [content_block_start] events among the calls of a
    turn. *)
Definition is_start (em : Emission) : bool :=
  match em with
  | OnStreamEvent (content_block_start _ _) => true
  | _ => false
  end.

Definition count_starts (ems : list Emission) : nat :=
  length (filter (λ em, is_start em) ems).

(** The token totals of the store's context. *)
Definition totals (sv : Server) : Z * Z :=
  (Store.totalInputTokens (Store.context (store sv)),
   Store.totalOutputTokens (Store.context (store sv))).

(** A block of the store's current context is still streaming. *)
Definition streaming (sv : Server) : Prop :=
  ∃ b, b ∈ Store.deref (store sv) (Store.context (store sv))
       ∧ Store.isStreaming b = true.

End Chat.

(* ===================================================================== *)
(** * Concrete inputs used by the examples below *)
(* ===================================================================== *)

Module Examples.

(** A store with one streaming block, "b1", that has received "a". *)
Definition store_streaming : Store.State :=
  Store.run
    [Store.OpCreateStreamingBlock (Store.mkFresh (lit "b1") 1 1)
       Store.ASSISTANT_TEXT None;
     Store.OpAppendToBlock 2 (lit "b1") (lit "a")]
    (Store.constructor (lit "c0") 0).

(** The same store after "b1" has been finalized. *)
Definition store_finalized : Store.State :=
  Store.exec (Store.OpFinalizeBlock 3 (lit "b1") None) store_streaming.

(** An environment: ids ["u"] followed by as many ['] as calls were made
    before; the clock reads the call number; every tool answers ["ok"]. *)
Definition env : Chat.Env :=
  Chat.mkEnv (λ k, lit "u" ++ replicate k 39%N) N.of_nat (λ _ _ _, lit "ok").

Definition server0 : Chat.Server :=
  Chat.mkServer (Store.constructor (lit "c0") 0) [] (lit "You are helpful.") []
    Chat.direct 0 0.

(** A first turn that asks for the tool [LS] and stops with "tool_use". *)
Definition tool_emissions : list Chat.Emission :=
  [Chat.OnStreamEvent (Chat.content_block_start 0 (Chat.SkToolUse (lit "LS") (lit "t1")));
   Chat.OnStreamEvent (Chat.content_block_delta 0 (Chat.input_json_delta (lit "{}")));
   Chat.OnStreamEvent (Chat.content_block_stop 0);
   Chat.OnMessage (lit "m1") (lit "model")].

Definition tool_final : Chat.FinalMessage :=
  Chat.mkFinal (lit "m1") (Some (lit "tool_use")) 3 5
    [Chat.CToolUse (lit "t1") (lit "LS") (lit "{}")].

(** A second turn that answers with text and stops with "end_turn". *)
Definition text_emissions : list Chat.Emission :=
  [Chat.OnStreamEvent (Chat.content_block_start 0 Chat.SkOther);
   Chat.OnStreamEvent (Chat.content_block_delta 0 (Chat.text_delta (lit "done")));
   Chat.OnStreamEvent (Chat.content_block_stop 0);
   Chat.OnMessage (lit "m2") (lit "model")].

Definition text_final : Chat.FinalMessage :=
  Chat.mkFinal (lit "m2") (Some (lit "end_turn")) 2 1 [Chat.CText (lit "done")].

(** A turn under way: one block has started and is streaming. *)
Definition turn_under_way : Chat.Turn :=
  Chat.Pending
    [Chat.OnStreamEvent (Chat.content_block_start 0 Chat.SkOther);
     Chat.OnStreamEvent (Chat.content_block_delta 0 (Chat.text_delta (lit "par")))].

Definition request (text : string) : Chat.ChatRequest :=
  Chat.mkRequest (Some (lit text)) None.

(** The server while the answer to a first message is streaming. *)
Definition server_streaming : Chat.Server :=
  (Chat.post env [turn_under_way] (request "first") server0).1.

(** Twenty blocks of 64 pixels, the least height the server estimates. *)
Definition short_blocks : list Z := replicate 20 64%Z.

End Examples.

(* ===================================================================== *)
(** * Properties *)
(* ===================================================================== *)

(** ** Strings *)

Section JsFacts.

Lemma split_nonempty sep s : split sep s ≠ [].
Proof. destruct s as [|c r]; simpl; [done|]. case_decide; [done|]. by destruct (split sep r). Qed.

(** [split] yields one piece more than there are separators. *)
Lemma length_split sep s : length (split sep s) = S (occurrences sep s).
Proof.
  unfold occurrences. induction s as [|c r IH]; [done|].
  simpl. rewrite filter_cons. case_decide; simpl; [by rewrite IH|].
  pose proof (split_nonempty sep r). by destruct (split sep r).
Qed.

(** The global match finds every occurrence. *)
Lemma length_match_all u s :
  length (default [] (match_all u s)) = occurrences u s.
Proof.
  unfold match_all, occurrences.
  destruct (filter _ s) eqn:E; [done|]. simpl. by rewrite length_fmap.
Qed.

(** [Math.ceil(a / b)] on integers. *)
Lemma Math_ceil_div (a b : Z) :
  (0 < b)%Z → Math_ceil (inject_Z a / inject_Z b) = (- ((- a) `div` b))%Z.
Proof.
  intros Hb. destruct b as [|p|p]; try lia.
  unfold Math_ceil, Qceiling, Qfloor, Qdiv, Qinv, Qmult, Qopp, inject_Z. simpl.
  by rewrite Z.mul_1_r.
Qed.

Lemma Qceiling_add_Z (x : Q) (z : Z) :
  Qceiling (x + inject_Z z) = (Qceiling x + z)%Z.
Proof.
  destruct x as [n d]. unfold Qceiling, Qfloor, Qplus, Qopp, inject_Z. simpl.
  rewrite Z.mul_1_r, Pos.mul_1_r.
  replace (- (n + z * Z.pos d))%Z with (- n + (- z) * Z.pos d)%Z by lia.
  rewrite Z.div_add by lia. lia.
Qed.

End JsFacts.

(** ** Height estimation *)

Section HeightFacts.

Import Height.

Lemma server_estimateHeight_eq content :
  Server.estimateHeight content =
  Z.max 60
    (Z.max (Z.of_nat (occurrences LF content) + 1)
           (- ((- Z.of_nat (length content)) `div` 80)) * 24 + 40).
Proof.
  unfold Server.estimateHeight. rewrite length_split, Math_ceil_div by lia.
  by rewrite Nat2Z.inj_succ, <- Z.add_1_r.
Qed.

Lemma client_estimateHeight_eq content fontSize :
  Client.estimateHeight content fontSize =
  (Qceiling
     (inject_Z (Z.max (Z.of_nat (occurrences LF content) + 1)
                      (- ((- Z.of_nat (length content)) `div` 100)))
      * (fontSize * (3 # 2))) + 60)%Z.
Proof.
  unfold Client.estimateHeight, Client.CHARS_PER_LINE, Client.LINE_HEIGHT,
    Client.BASE_PADDING, Client.HEADER_HEIGHT.
  rewrite length_match_all, Math_ceil_div by lia.
  unfold Math_ceil. rewrite !Qceiling_add_Z. lia.
Qed.

(** Whatever the font size, the two estimators disagree on the empty
    content or on a single line feed. *)
Lemma estimators_disagree (fontSize : Q) :
  Client.estimateHeight [] fontSize ≠ Server.estimateHeight []
  ∨ Client.estimateHeight [LF] fontSize ≠ Server.estimateHeight [LF].
Proof.
  destruct (decide (Client.estimateHeight [] fontSize = Server.estimateHeight []))
    as [H0|H0]; [right|by left].
  intros H1. rewrite client_estimateHeight_eq in H0, H1.
  change (Server.estimateHeight []) with 64%Z in H0.
  change (Server.estimateHeight [LF]) with 88%Z in H1.
  change (Z.max (Z.of_nat (occurrences LF []) + 1) _) with 1%Z in H0.
  change (Z.max (Z.of_nat (occurrences LF [LF]) + 1) _) with 2%Z in H1.
  pose proof (Qle_ceiling (1 * (fontSize * (3 # 2)))) as A.
  pose proof (Qceiling_lt (2 * (fontSize * (3 # 2)))) as B.
  change (inject_Z 1) with 1%Q in H0. change (inject_Z 2) with 2%Q in H1.
  replace (Qceiling (1 * (fontSize * (3 # 2)))) with 4%Z in A by lia.
  replace (Qceiling (2 * (fontSize * (3 # 2))) - 1)%Z with 27%Z in B by lia.
  unfold inject_Z in A, B. lra.
Qed.

(** The specification's formula counts the line feeds, the server counts
    the lines: whatever the four constants, the formula gives the contents
    "a" and "\n" the same height, and the server does not. *)
Lemma server_is_not_spec_height floor lineHeight padding assumedColumns :
  (0 < assumedColumns)%Z →
  spec_height floor lineHeight padding assumedColumns (lit "a")
  = spec_height floor lineHeight padding assumedColumns [LF]
  ∧ Server.estimateHeight (lit "a") ≠ Server.estimateHeight [LF].
Proof.
  intros Hc. split; [|by vm_compute].
  unfold spec_height. rewrite !Math_ceil_div by done.
  change (Z.of_nat (occurrences LF (lit "a"))) with 0%Z.
  change (Z.of_nat (occurrences LF [LF])) with 1%Z.
  change (Z.of_nat (length (lit "a"))) with 1%Z.
  change (Z.of_nat (length [LF])) with 1%Z.
  assert ((-1) `div` assumedColumns < 0)%Z
    by (apply Z.div_lt_upper_bound; lia).
  change (Z.opp 1) with (-1)%Z.
  set (t := (- ((- 1) `div` assumedColumns))%Z).
  by replace (Z.max 0 t) with (Z.max 1 t) by lia.
Qed.

(** C1 (as the code has it).  The server's estimate is
    max(60, lines * 24 + 40) with lines = max(line feeds + 1,
    ceil(length / 80)); the client's is
    ceil(lines' * 1.5 * fontSize) + 60 with lines' = max(line feeds + 1,
    ceil(length / 100)); and for no font size do the two agree on every
    content. *)
Theorem C1_height_estimates :
  (∀ content,
     Server.estimateHeight content =
     Z.max 60
       (Z.max (Z.of_nat (occurrences LF content) + 1)
              (- ((- Z.of_nat (length content)) `div` 80)) * 24 + 40))
  ∧ (∀ content fontSize,
       Client.estimateHeight content fontSize =
       (Qceiling
          (inject_Z (Z.max (Z.of_nat (occurrences LF content) + 1)
                           (- ((- Z.of_nat (length content)) `div` 100)))
           * (fontSize * (3 # 2))) + 60)%Z)
  ∧ (∀ fontSize, ∃ content,
       Client.estimateHeight content fontSize ≠ Server.estimateHeight content).
Proof.
  split; [exact server_estimateHeight_eq|].
  split; [exact client_estimateHeight_eq|].
  intros fontSize. destruct (estimators_disagree fontSize); eauto.
Qed.

(** C1 as stated fails on the empty content: the server's estimate is 64
    there, while the specification's formula with the server's constants
    gives 60 and the client's estimator, at the default font size of 14,
    gives 81. *)
Lemma C1_counterexample :
  Server.estimateHeight (lit "") ≠ spec_height 60 24 40 80 (lit "")
  ∧ Client.estimateHeight (lit "") 14 ≠ Server.estimateHeight (lit "").
Proof. by split; vm_compute. Qed.

End HeightFacts.

(** ** The Context Store *)

Section StoreFacts.

Import Store.

(** *** How block objects change *)

Lemma evolves_refl R `{!Reflexive R} b : evolves R b b.
Proof. by repeat split. Qed.

Lemma heap_evolves_refl R `{!Reflexive R} h : heap_evolves R h h.
Proof. intros a b ?. exists b. eauto using evolves_refl. Qed.

Lemma heap_evolves_trans R `{!Transitive R} h1 h2 h3 :
  heap_evolves R h1 h2 → heap_evolves R h2 h3 → heap_evolves R h1 h3.
Proof.
  intros H12 H23 a b Hb.
  destruct (H12 a b Hb) as (b2 & Hb2 & ? & ? & ? & ?).
  destruct (H23 a b2 Hb2) as (b3 & Hb3 & ? & ? & ? & ?).
  exists b3. repeat split; [done|congruence|congruence|auto|by etrans].
Qed.

Lemma heap_evolves_snoc R `{!Reflexive R} h b : heap_evolves R h (h ++ [b]).
Proof.
  intros a b0 Hb0. exists b0. split; [|by apply evolves_refl].
  by apply lookup_app_l_Some.
Qed.

Lemma heap_evolves_alter R `{!Reflexive R} f a h :
  (∀ b, evolves R b (f b)) → heap_evolves R h (alter f a h).
Proof.
  intros Hf a' b Hb. destruct (decide (a = a')) as [->|Hne].
  - exists (f b). by rewrite list_lookup_alter_eq, Hb.
  - exists b. rewrite list_lookup_alter_ne by done. eauto using evolves_refl.
Qed.

Lemma evolves_finalize R `{!Reflexive R} patch b : evolves R b (finalize patch b).
Proof. by repeat split. Qed.

Lemma evolves_append delta b : evolves prefix b (append_content delta b).
Proof. repeat split; [done|]. by apply prefix_app_r. Qed.

Lemma addBlock_heap R `{!Reflexive R} e ty text md st :
  heap_evolves R (blockHeap st) (blockHeap (addBlock e ty text md st).1).
Proof. by apply heap_evolves_snoc. Qed.

Lemma setTools_heap R `{!Reflexive R, !Transitive R} now ts st :
  heap_evolves R (blockHeap st) (blockHeap (setTools now ts st).1).
Proof.
  unfold setTools.
  set (st0 := mkState _ _ _).
  change (blockHeap st) with (blockHeap (st0, @nil addr).1).
  generalize (st0, @nil addr). clear st0.
  induction ts as [|te ts IH]; intros acc; simpl; [by apply heap_evolves_refl|].
  eapply heap_evolves_trans; [done| |apply IH]. simpl.
  apply (addBlock_heap R).
Qed.

Lemma exec_heap R `{!Reflexive R, !Transitive R} op st :
  is_append op = false ∨ (∀ c d : jsstring, R c (c ++ d)) →
  heap_evolves R (blockHeap st) (blockHeap (exec op st)).
Proof.
  intros HR. destruct op; simpl.
  - apply (addBlock_heap R).
  - by apply setTools_heap.
  - apply (addBlock_heap R).
  - by apply heap_evolves_snoc.
  - unfold appendToBlock. destruct (find_block _ _); [|by apply heap_evolves_refl].
    simpl. apply heap_evolves_alter; [done|]. intros b.
    destruct HR as [?|HR]; [done|]. repeat split; [done|]. apply HR.
  - unfold finalizeBlock. destruct (find_block _ _); [|by apply heap_evolves_refl].
    simpl. apply heap_evolves_alter; [done|]. intros b. by apply evolves_finalize.
  - by apply heap_evolves_refl.
  - by apply heap_evolves_refl.
Qed.

Lemma run_heap R `{!Reflexive R, !Transitive R} ops st :
  Forall (λ op, is_append op = false) ops ∨ (∀ c d : jsstring, R c (c ++ d)) →
  heap_evolves R (blockHeap st) (blockHeap (run ops st)).
Proof.
  revert st. induction ops as [|op ops IH]; intros st HR; simpl.
  - by apply heap_evolves_refl.
  - eapply heap_evolves_trans; [done| |apply IH].
    + apply exec_heap; [done..|]. destruct HR as [HR|?]; [left|by right].
      by inversion HR.
    + destruct HR as [HR|?]; [left|by right]. by inversion HR.
Qed.

(** C5 (as the code has it).  Through every sequence of store operations a
    block object keeps its id, its streaming flag never goes back from
    [false] to [true], and its content only grows at the end: the old
    content is a prefix of the new one; and it is the same when no
    [appendToBlock] is among the operations.  (The store does not look at
    the streaming flag when it appends.) *)
Theorem C5_flag_and_content_monotone ops st a b :
  blockHeap st !! a = Some b →
  ∃ b', blockHeap (run ops st) !! a = Some b'
        ∧ block_id b' = block_id b
        ∧ (isStreaming b = false → isStreaming b' = false)
        ∧ content b `prefix_of` content b'
        ∧ (Forall (λ op, is_append op = false) ops → content b' = content b).
Proof.
  intros Hb.
  assert (Happ : ∀ c d : jsstring, c `prefix_of` c ++ d)
    by (intros; by apply prefix_app_r).
  destruct (run_heap prefix ops st (or_intror Happ) a b Hb)
    as (b' & Hb' & Hid & _ & Hflag & Hpre).
  exists b'. repeat split; try done.
  intros Hops. destruct (run_heap eq ops st (or_introl Hops) a b Hb)
    as (b2 & Hb2 & _ & _ & _ & Heq). congruence.
Qed.

(** C5 at the streaming block of the example store, through a finalize and
    a later append. *)
Lemma C5_witness :
  blockHeap Examples.store_streaming !! 0
  = Some (mkBlock (lit "b1") ASSISTANT_TEXT (lit "a") 1 None true 64)
  ∧ ∃ b', blockHeap
            (run [OpFinalizeBlock 3 (lit "b1") None;
                  OpAppendToBlock 4 (lit "b1") (lit "!")]
               Examples.store_streaming) !! 0 = Some b'
          ∧ block_id b' = lit "b1"
          ∧ (true = false → isStreaming b' = false)
          ∧ lit "a" `prefix_of` content b'
          ∧ (Forall (λ op, is_append op = false)
               [OpFinalizeBlock 3 (lit "b1") None;
                OpAppendToBlock 4 (lit "b1") (lit "!")]
             → content b' = lit "a").
Proof.
  split; [reflexivity|].
  exact (C5_flag_and_content_monotone
           [OpFinalizeBlock 3 (lit "b1") None;
            OpAppendToBlock 4 (lit "b1") (lit "!")]
           Examples.store_streaming 0
           (mkBlock (lit "b1") ASSISTANT_TEXT (lit "a") 1 None true 64)
           eq_refl).
Defined.

(** C5 as stated fails: the content of a finalized block changes when
    [appendToBlock] is called on it. *)
Lemma C5_counterexample :
  ∃ b b',
    blockHeap Examples.store_finalized !! 0 = Some b
    ∧ isStreaming b = false
    ∧ blockHeap
        (exec (OpAppendToBlock 4 (lit "b1") (lit "!")) Examples.store_finalized) !! 0
      = Some b'
    ∧ content b = lit "a"
    ∧ content b' = lit "a!".
Proof. eexists _, _. by repeat split. Qed.

(** *** Finalizing twice *)

Lemma finalize_idemp patch b : finalize patch (finalize patch b) = finalize patch b.
Proof.
  unfold finalize. destruct patch as [p|]; simpl; [|done].
  unfold merge_metadata. simpl. by rewrite (assoc_L (∪)), (idemp_L (∪)).
Qed.

(** Altering a block object without touching its id does not change what
    [find] finds. *)
Lemma find_block_alter f a now st blockId :
  (∀ b, block_id (f b) = block_id b) →
  find_block
    (touch now (mkState (alter f a (blockHeap st)) (arrayHeap st) (context st)))
    blockId
  = find_block st blockId.
Proof.
  intros Hf. unfold find_block, blockRefs. simpl. f_equal.
  apply list_find_ext. intros a'. unfold has_id. simpl.
  destruct (decide (a = a')) as [->|Hne].
  - rewrite list_lookup_alter_eq. destruct (blockHeap st !! a'); simpl; [|done].
    by rewrite Hf.
  - by rewrite list_lookup_alter_ne.
Qed.

(** C8.  Finalizing a block twice, at the times [t1] and [t2], gives the
    store that finalizing it once at [t2] gives, and returns the same
    block; after the second call the heap and every property of the context
    but [updatedAt] are as the first call left them. *)
Theorem C8_finalize_idempotent t1 t2 blockId patch st :
  let once := finalizeBlock t1 blockId patch st in
  let twice := finalizeBlock t2 blockId patch once.1 in
  twice = finalizeBlock t2 blockId patch st
  ∧ twice.2 = once.2
  ∧ same_but_updatedAt twice.1 once.1.
Proof.
  simpl. unfold finalizeBlock.
  destruct (find_block st blockId) as [a|] eqn:Hfind; simpl.
  - rewrite find_block_alter, Hfind by done. simpl.
    rewrite list_alter_alter_eq.
    rewrite (list_alter_ext (finalize patch ∘ finalize patch) (finalize patch)
               (blockHeap st) (blockHeap st) a)
      by (intros; simpl; auto using finalize_idemp).
    by repeat split.
  - rewrite Hfind. by repeat split.
Qed.

(** *** Token totals *)

(** Each call adds its two arguments, whatever their sign. *)
Lemma run_usage_sums calls st :
  let st' := run (usage_ops calls) st in
  totalInputTokens (getContext st')
  = (totalInputTokens (getContext st) + foldr Z.add 0 ((λ c, c.1.2) <$> calls))%Z
  ∧ totalOutputTokens (getContext st')
    = (totalOutputTokens (getContext st) + foldr Z.add 0 ((λ c, c.2) <$> calls))%Z.
Proof.
  revert st. induction calls as [|[[now i] o] calls IH]; intros st.
  - simpl. unfold getContext. lia.
  - destruct (IH (updateTokenUsage now i o st)) as [Hi Ho].
    cbv zeta in *.
    change (run (usage_ops ((now, i, o) :: calls)) st)
      with (run (usage_ops calls) (updateTokenUsage now i o st)).
    rewrite Hi, Ho, !fmap_cons. unfold getContext, updateTokenUsage.
    cbn [context totalInputTokens totalOutputTokens fst snd foldr]. lia.
Qed.

(** A sequence of [updateTokenUsage] calls with no negative argument lowers
    no total. *)
Lemma run_usage_totals calls st :
  Forall (λ c : Time * Z * Z, (0 ≤ c.1.2)%Z ∧ (0 ≤ c.2)%Z) calls →
  let st' := run (usage_ops calls) st in
  (totalInputTokens (getContext st) ≤ totalInputTokens (getContext st'))%Z
  ∧ (totalOutputTokens (getContext st) ≤ totalOutputTokens (getContext st'))%Z.
Proof.
  intros Hcalls. revert st.
  induction Hcalls as [|[[now i] o] calls [Hi Ho] _ IH]; intros st; simpl; [lia|].
  specialize (IH (updateTokenUsage now i o st)). simpl in IH.
  unfold getContext in *. simpl in *. lia.
Qed.

(** C9.  From a fresh context, [updateTokenUsage(3,5)] then
    [updateTokenUsage(2,1)] leave the totals at 5 and 6.  Whatever the
    state, a sequence of [updateTokenUsage] calls adds to each total the sum
    of the arguments given for it; so when no argument is negative, the
    calls never lower a total. *)
Theorem C9_token_totals :
  (∀ uuid now t1 t2,
     let st := run (usage_ops [(t1, 3, 5); (t2, 2, 1)]%Z) (constructor uuid now) in
     totalInputTokens (getContext st) = 5%Z
     ∧ totalOutputTokens (getContext st) = 6%Z)
  ∧ (∀ st calls,
       let st' := run (usage_ops calls) st in
       totalInputTokens (getContext st')
       = (totalInputTokens (getContext st) + foldr Z.add 0 ((λ c, c.1.2) <$> calls))%Z
       ∧ totalOutputTokens (getContext st')
         = (totalOutputTokens (getContext st) + foldr Z.add 0 ((λ c, c.2) <$> calls))%Z)
  ∧ (∀ st calls,
       Forall (λ c : Time * Z * Z, (0 ≤ c.1.2)%Z ∧ (0 ≤ c.2)%Z) calls →
       let st' := run (usage_ops calls) st in
       (totalInputTokens (getContext st) ≤ totalInputTokens (getContext st'))%Z
       ∧ (totalOutputTokens (getContext st) ≤ totalOutputTokens (getContext st'))%Z).
Proof.
  split; [done|]. split.
  - intros st calls. apply run_usage_sums.
  - intros st calls Hcalls. by apply run_usage_totals.
Qed.

(** C9 at the two calls of the example, after a first call on the fresh
    store. *)
Lemma C9_witness :
  Forall (λ c : Time * Z * Z, (0 ≤ c.1.2)%Z ∧ (0 ≤ c.2)%Z) [(2%N, 3, 5); (3%N, 2, 1)]%Z
  ∧ let st := run (usage_ops [(1%N, 4, 7)%Z]) (constructor (lit "c0") 0) in
    let st' := run (usage_ops [(2%N, 3, 5); (3%N, 2, 1)]%Z) st in
    (totalInputTokens (getContext st) ≤ totalInputTokens (getContext st'))%Z
    ∧ (totalOutputTokens (getContext st) ≤ totalOutputTokens (getContext st'))%Z.
Proof.
  assert (H : Forall (λ c : Time * Z * Z, (0 ≤ c.1.2)%Z ∧ (0 ≤ c.2)%Z)
                [(2%N, 3, 5); (3%N, 2, 1)]%Z).
  { repeat constructor; simpl; lia. }
  exact (conj H
           (proj2 (proj2 C9_token_totals)
              (run (usage_ops [(1%N, 4, 7)%Z]) (constructor (lit "c0") 0))
              [(2%N, 3, 5); (3%N, 2, 1)]%Z H)).
Defined.

(** C9 as stated fails: nothing keeps an argument from being negative, and
    after [updateTokenUsage(3,5)] on a fresh store the call
    [updateTokenUsage(-5,-1)] brings the totals read back from 3 and 5 down
    to -2 and 4. *)
Lemma C9_counterexample :
  let st := run (usage_ops [(1%N, 3, 5)%Z]) (constructor (lit "c0") 0) in
  let st' := run (usage_ops [(2%N, -5, -1)%Z]) st in
  totalInputTokens (getContext st) = 3%Z
  ∧ totalOutputTokens (getContext st) = 5%Z
  ∧ totalInputTokens (getContext st') = (-2)%Z
  ∧ totalOutputTokens (getContext st') = 4%Z
  ∧ (totalInputTokens (getContext st') < totalInputTokens (getContext st))%Z
  ∧ (totalOutputTokens (getContext st') < totalOutputTokens (getContext st))%Z.
Proof. by repeat split. Qed.

(** *** Snapshots *)

Lemma push_touch_keeps_array b now st :
  keeps_array st (touch now (push_block b st).1).
Proof. split; simpl; [done|]. by rewrite length_alter. Qed.

Lemma keeps_array_trans st1 st2 st3 :
  keeps_array st1 st2 → keeps_array st2 st3 → keeps_array st1 st3.
Proof. intros [? ?] [? ?]. split; congruence. Qed.

Lemma setTools_keeps_array now ts st : keeps_array st (setTools now ts st).1.
Proof.
  unfold setTools. set (st0 := mkState _ _ _).
  assert (H0 : keeps_array st (st0, @nil addr).1) by done.
  revert H0. generalize (st0, @nil addr). clear st0.
  induction ts as [|te ts IH]; intros acc H0; simpl; [done|].
  apply IH. simpl. eapply keeps_array_trans; [done|].
  apply push_touch_keeps_array.
Qed.

Lemma addBlock_keeps_array e ty text md st :
  keeps_array st (addBlock e ty text md st).1.
Proof. apply push_touch_keeps_array. Qed.

Lemma setSystemPrompt_keeps_array now e prompt st :
  keeps_array st (setSystemPrompt now e prompt st).1.
Proof.
  unfold setSystemPrompt. set (st0 := mkState _ _ _).
  apply (keeps_array_trans st st0); [by split|]. apply addBlock_keeps_array.
Qed.

Lemma exec_keeps_array op st : is_clear op = false → keeps_array st (exec op st).
Proof.
  destruct op; intros Hc; try done; cbn [exec].
  - apply setSystemPrompt_keeps_array.
  - apply setTools_keeps_array.
  - apply addBlock_keeps_array.
  - apply push_touch_keeps_array.
  - unfold appendToBlock. by destruct (find_block _ _).
  - unfold finalizeBlock. by destruct (find_block _ _).
Qed.

Lemma exec_array_allocated op st : array_allocated st → array_allocated (exec op st).
Proof.
  unfold array_allocated. intros Hst.
  destruct (is_clear op) eqn:Hc.
  - destruct op; try done. simpl. rewrite length_app. simpl. lia.
  - destruct (exec_keeps_array op st Hc) as [-> ->]. done.
Qed.

Lemma run_array_allocated ops st : array_allocated st → array_allocated (run ops st).
Proof.
  revert st. induction ops as [|op ops IH]; intros st Hst; simpl; [done|].
  by apply IH, exec_array_allocated.
Qed.

Lemma constructor_array_allocated uuid now : array_allocated (constructor uuid now).
Proof. unfold array_allocated. simpl. lia. Qed.

(** C6 (as the code has it).  [getContext] copies the context object, not
    what it refers to.  For a snapshot taken in any state the store reaches:
    [updateTokenUsage] and [clear] leave the blocks the snapshot shows as
    they were; after any other operation the snapshot shows the blocks of
    the store's current context, since the block array and the block
    objects are shared. *)
Theorem C6_snapshot_is_shallow uuid0 t0 history :
  let st := run history (constructor uuid0 t0) in
  let snapshot := getContext st in
  (∀ now i o, deref (updateTokenUsage now i o st) snapshot = deref st snapshot)
  ∧ (∀ uuid now, deref (clear uuid now st) snapshot = deref st snapshot)
  ∧ (∀ op, is_clear op = false →
       deref (exec op st) snapshot = deref (exec op st) (getContext (exec op st))).
Proof.
  intros st snapshot. split; [done|]. split.
  - intros uuid now. unfold deref, blockRefs, clear. simpl.
    rewrite lookup_app_l; [done|].
    apply (run_array_allocated history), constructor_array_allocated.
  - intros op Hc. unfold deref, blockRefs, getContext.
    by destruct (exec_keeps_array op st Hc) as [-> _].
Qed.

(** C6 at the example store and an append. *)
Lemma C6_witness :
  is_clear (OpAppendToBlock 3 (lit "b1") (lit "c")) = false
  ∧ let st := run [] (constructor (lit "c0") 0) in
    let op := OpAppendToBlock 3 (lit "b1") (lit "c") in
    deref (exec op st) (getContext st)
    = deref (exec op st) (getContext (exec op st)).
Proof.
  split; [reflexivity|].
  exact (proj2 (proj2 (C6_snapshot_is_shallow (lit "c0") 0 []))
           (OpAppendToBlock 3 (lit "b1") (lit "c")) eq_refl).
Defined.

(** C6 as stated fails: a snapshot taken while "b1" holds "a" shows "ac"
    after the store has appended "c", and shows one more block after the
    store has added one. *)
Lemma C6_counterexample :
  let st := Examples.store_streaming in
  let snapshot := getContext st in
  content <$> deref st snapshot = [lit "a"]
  ∧ content <$> deref (exec (OpAppendToBlock 3 (lit "b1") (lit "c")) st) snapshot
    = [lit "ac"]
  ∧ content <$>
      deref (exec (OpAddBlock (mkFresh (lit "b2") 3 3) USER (lit "hi") None) st)
        snapshot
    = [lit "a"; lit "hi"].
Proof. by repeat split. Qed.

End StoreFacts.

(** ** The search index *)

Section SearchFacts.

Import Search.

(** *** [startsWith] and [indexOf] *)

Lemma startsWith_prefix needle hay :
  startsWith needle hay = true ↔ needle `prefix_of` hay.
Proof.
  revert hay. induction needle as [|a needle IH]; intros [|b hay]; simpl.
  - split; [intros; apply prefix_nil|done].
  - split; [intros; apply prefix_nil|done].
  - split; [done|]. intros H. by apply prefix_nil_not in H.
  - rewrite andb_true_iff, bool_decide_eq_true, IH. split.
    + intros [-> ?]. by apply prefix_cons.
    + intros H. split; [by apply prefix_cons_inv_1 in H|by apply prefix_cons_inv_2 in H].
Qed.

Lemma startsWith_length needle hay :
  startsWith needle hay = true → length needle ≤ length hay.
Proof. rewrite startsWith_prefix. apply prefix_length. Qed.

Lemma indexOf_from_Some needle hay pos j :
  indexOf_from needle hay pos = Some j →
  pos ≤ j ∧ occurs_at needle hay (j - pos)
  ∧ ∀ k, k < j - pos → ¬ occurs_at needle hay k.
Proof.
  unfold occurs_at. revert pos.
  induction hay as [|c hay IH]; intros pos; simpl.
  - destruct (startsWith needle []) eqn:E; [|done].
    intros [= <-]. rewrite Nat.sub_diag. simpl. repeat split; [lia|done|lia].
  - destruct (startsWith needle (c :: hay)) eqn:E.
    + intros [= <-]. rewrite Nat.sub_diag. simpl. repeat split; [lia|done|lia].
    + intros H. destruct (IH _ H) as (Hle & Hocc & Hmin).
      replace (j - pos) with (S (j - S pos)) by lia. simpl.
      repeat split; [lia|done|]. intros [|k] Hk; simpl; [congruence|].
      apply Hmin. lia.
Qed.

Lemma indexOf_from_None needle hay pos k :
  indexOf_from needle hay pos = None → ¬ occurs_at needle hay k.
Proof.
  unfold occurs_at. revert pos k.
  induction hay as [|c hay IH]; intros pos k; simpl.
  - destruct (startsWith needle []) eqn:E; [done|]. intros _.
    by rewrite drop_nil, E.
  - destruct (startsWith needle (c :: hay)) eqn:E; [done|].
    intros H. destruct k as [|k]; simpl; [congruence|]. by eapply IH.
Qed.

(** [indexOf] returns the first occurrence at or after the start. *)
Lemma indexOf_Some hay needle from j :
  from ≤ length hay →
  indexOf hay needle from = Some j →
  from ≤ j ∧ occurs_at needle hay j
  ∧ ∀ k, from ≤ k < j → ¬ occurs_at needle hay k.
Proof.
  unfold indexOf. intros Hfrom. rewrite Nat.min_l by done. intros H.
  destruct (indexOf_from_Some _ _ _ _ H) as (Hle & Hocc & Hmin).
  unfold occurs_at in *. rewrite drop_drop in Hocc.
  replace (from + (j - from)) with j in Hocc by lia.
  repeat split; [done..|]. intros k Hk.
  specialize (Hmin (k - from)). rewrite drop_drop in Hmin.
  replace (from + (k - from)) with k in Hmin by lia. apply Hmin. lia.
Qed.

Lemma indexOf_None hay needle from k :
  from ≤ k → indexOf hay needle from = None → ¬ occurs_at needle hay k.
Proof.
  unfold indexOf. intros Hk H.
  pose proof (indexOf_from_None _ _ _ (k - from `min` length hay) H) as Hno.
  unfold occurs_at in *. rewrite drop_drop in Hno.
  by replace (from `min` length hay + (k - from `min` length hay)) with k in Hno by lia.
Qed.

(** An occurrence of a needle that is not empty lies within the text. *)
Lemma occurs_at_bound needle hay i :
  needle ≠ [] → occurs_at needle hay i → i + length needle ≤ length hay.
Proof.
  unfold occurs_at. intros Hne H. apply startsWith_length in H.
  rewrite length_drop in H. destruct needle; [done|]. simpl in *. lia.
Qed.

(** *** Lower-casing and trimming *)

Lemma lower_unit_nonempty c : lower_unit c ≠ [].
Proof. unfold lower_unit. by repeat case_match. Qed.

Lemma toLowerCase_nonempty s : s ≠ [] → toLowerCase s ≠ [].
Proof.
  destruct s as [|c s]; [done|]. intros _. unfold toLowerCase. simpl.
  pose proof (lower_unit_nonempty c). by destruct (lower_unit c).
Qed.

Lemma trim_nonempty s : trim s ≠ [] → s ≠ [].
Proof. by intros H ->. Qed.

(** Lower-casing keeps the length of a text without U+0130. *)
Lemma toLowerCase_length s :
  304%N ∉ s → length (toLowerCase s) = length s.
Proof.
  unfold toLowerCase. induction s as [|c s IH]; [done|].
  rewrite not_elem_of_cons. intros [Hc Hs].
  change (length (lower_unit c ++ concat (lower_unit <$> s)) = S (length s)).
  rewrite length_app, (IH Hs).
  enough (length (lower_unit c) = 1) by lia. unfold lower_unit.
  destruct (_ && _); [done|]. destruct (_ && _); [done|].
  destruct (N.eqb_spec c 304); [congruence|done].
Qed.

(** *** The loop of [search] *)

(** The loop reports nothing but occurrences at or after its start. *)
Lemma scan_sound fuel id text nc nq ql start m :
  m ∈ scan fuel id text nc nq ql start →
  ∃ i, start ≤ i ∧ occurs_at nq nc i ∧ m = match_at id text ql i.
Proof.
  revert start. induction fuel as [|fuel IH]; intros start; simpl.
  - by intros ?%elem_of_nil.
  - case_decide as Hlt; [|by intros ?%elem_of_nil].
    destruct (indexOf nc nq start) as [j|] eqn:Hidx; [|by intros ?%elem_of_nil].
    destruct (indexOf_Some nc nq start j ltac:(lia) Hidx) as (Hle & Hocc & _).
    rewrite elem_of_cons. intros [->|Hm].
    + by exists j.
    + destruct (IH _ Hm) as (i & ? & ? & ?). exists i. split; [lia|done].
Qed.

(** With fuel for the rest of the text, the loop reports every occurrence
    at or after its start. *)
Lemma scan_complete fuel id text nc nq ql start i :
  nq ≠ [] → length nc - start ≤ fuel →
  start ≤ i → occurs_at nq nc i →
  match_at id text ql i ∈ scan fuel id text nc nq ql start.
Proof.
  intros Hnq. revert start. induction fuel as [|fuel IH]; intros start Hfuel Hi Hocc;
    pose proof (occurs_at_bound _ _ _ Hnq Hocc) as Hb;
    assert (0 < length nq) by (destruct nq; [done|simpl; lia]).
  - lia.
  - simpl. rewrite decide_True by lia.
    destruct (indexOf nc nq start) as [j|] eqn:Hidx.
    + destruct (indexOf_Some nc nq start j ltac:(lia) Hidx) as (Hle & _ & Hmin).
      destruct (decide (i = j)) as [->|Hne]; [by left|].
      right. apply IH; [lia| |done].
      destruct (decide (j < i)); [lia|]. exfalso. apply (Hmin i); [lia|done].
    + exfalso. by apply (indexOf_None _ _ _ i Hi Hidx).
Qed.

(** The fuel [search] gives the loop is enough: with fuel for the rest of
    the text, more fuel changes nothing. *)
Lemma scan_fuel fuel1 fuel2 id text nc nq ql start :
  length nc - start ≤ fuel1 → length nc - start ≤ fuel2 →
  scan fuel1 id text nc nq ql start = scan fuel2 id text nc nq ql start.
Proof.
  revert fuel2 start.
  induction fuel1 as [|fuel1 IH]; intros [|fuel2] start H1 H2; simpl; try done.
  - by rewrite decide_False by lia.
  - by rewrite decide_False by lia.
  - case_decide as Hlt; [|done].
    destruct (indexOf nc nq start) as [j|] eqn:Hidx; [|done].
    destruct (indexOf_Some nc nq start j ltac:(lia) Hidx) as (Hle & _ & _).
    f_equal. apply IH; lia.
Qed.

(** The matches of one block are exactly its occurrences of the
    lower-cased query. *)
Lemma search_block_spec query id text m :
  query ≠ [] →
  m ∈ search_block query (id, text) ↔
  ∃ i, occurs_at (toLowerCase query) (toLowerCase text) i
       ∧ m = match_at id text (length query) i.
Proof.
  intros Hq. unfold search_block. simpl. split.
  - intros Hm. destruct (scan_sound _ _ _ _ _ _ _ _ Hm) as (i & _ & ? & ?). eauto.
  - intros (i & Hocc & ->). apply scan_complete; [|lia|lia|done].
    by apply toLowerCase_nonempty.
Qed.

Lemma search_spec query si m :
  trim query ≠ [] →
  m ∈ search query si ↔
  ∃ id text i, (id, text) ∈ blockContents si
       ∧ occurs_at (toLowerCase query) (toLowerCase text) i
       ∧ m = match_at id text (length query) i.
Proof.
  intros Ht. unfold search. rewrite decide_False by done.
  rewrite list_elem_of_bind. split.
  - intros ([id text] & Hm & Hin).
    apply search_block_spec in Hm; [|by apply trim_nonempty].
    destruct Hm as (i & ? & ?). by exists id, text, i.
  - intros (id & text & i & Hin & Hocc & ->). exists (id, text). split; [|done].
    apply search_block_spec; [by apply trim_nonempty|]. eauto.
Qed.

(** C7.  Searching "aa" in the one block "aabaa" gives the two matches
    [0,2) and [3,5); and in general, for a query that is not blank, every
    position of a retained block at which the lower-cased query occurs in
    the lower-cased content is reported, overlapping or not. *)
Theorem C7_overlapping_matches :
  search (lit "aa") (indexBlock (lit "b") (lit "aabaa") empty)
  = [mkMatch (lit "b") 0 2 (lit "aa"); mkMatch (lit "b") 3 5 (lit "aa")]
  ∧ ∀ query si id text i,
      trim query ≠ [] →
      (id, text) ∈ blockContents si →
      occurs_at (toLowerCase query) (toLowerCase text) i →
      mkMatch id i (i + length query) (substring text i (i + length query))
      ∈ search query si.
Proof.
  split; [by vm_compute|].
  intros query si id text i Ht Hin Hocc.
  apply search_spec; [done|]. by exists id, text, i.
Qed.

(** C7 at the second, overlapping occurrence of "aa" in "aabaa". *)
Lemma C7_witness :
  trim (lit "aa") ≠ []
  ∧ (lit "b", lit "aabaa") ∈ blockContents (indexBlock (lit "b") (lit "aabaa") empty)
  ∧ occurs_at (toLowerCase (lit "aa")) (toLowerCase (lit "aabaa")) 3
  ∧ mkMatch (lit "b") 3 (3 + length (lit "aa"))
      (substring (lit "aabaa") 3 (3 + length (lit "aa")))
    ∈ search (lit "aa") (indexBlock (lit "b") (lit "aabaa") empty).
Proof.
  assert (H1 : trim (lit "aa") ≠ []) by (by vm_compute).
  assert (H2 : (lit "b", lit "aabaa")
               ∈ blockContents (indexBlock (lit "b") (lit "aabaa") empty))
    by (vm_compute; left).
  assert (H3 : occurs_at (toLowerCase (lit "aa")) (toLowerCase (lit "aabaa")) 3)
    by reflexivity.
  exact (conj H1 (conj H2 (conj H3
           (proj2 C7_overlapping_matches (lit "aa") _ (lit "b") (lit "aabaa") 3
              H1 H2 H3)))).
Defined.

(** *** The retained contents *)

Lemma set_keys {V} k k' (v : V) m :
  k' ∈ (JsMap.set k v m).*1 → k' = k ∨ k' ∈ m.*1.
Proof.
  induction m as [|kv m IH]; simpl.
  - rewrite list_elem_of_singleton. auto.
  - case_decide as Hk; simpl; rewrite !elem_of_cons.
    + intros [->|?]; auto.
    + intros [->|?]; [auto|]. destruct IH; auto.
Qed.

Lemma set_NoDup {V} k (v : V) m : NoDup m.*1 → NoDup (JsMap.set k v m).*1.
Proof.
  induction m as [|kv m IH]; simpl.
  - intros _. apply NoDup_singleton.
  - rewrite NoDup_cons. intros [Hkv Hm]. case_decide as Hk; simpl.
    + rewrite NoDup_cons. by rewrite <- Hk.
    + rewrite NoDup_cons. split; [|auto].
      intros [?|?]%set_keys; done.
Qed.

Lemma delete_NoDup {V} k (m : list (jsstring * V)) :
  NoDup m.*1 → NoDup (JsMap.delete k m).*1.
Proof.
  unfold JsMap.delete. induction m as [|kv m IH]; [done|].
  rewrite fmap_cons, NoDup_cons. intros [Hkv Hm]. rewrite filter_cons.
  case_decide; [|auto]. rewrite fmap_cons, NoDup_cons. split; [|auto].
  intros Hin. apply Hkv. apply list_elem_of_fmap in Hin as (kv' & -> & Hin).
  apply list_elem_of_fmap. exists kv'. split; [done|].
  by apply list_elem_of_filter in Hin as [_ ?].
Qed.

(** No block id is retained twice. *)
Lemma run_NoDup ops si :
  NoDup (blockContents si).*1 → NoDup (blockContents (run ops si)).*1.
Proof.
  revert si. induction ops as [|op ops IH]; intros si Hsi; simpl; [done|].
  apply IH. destruct op; simpl.
  - by apply set_NoDup, delete_NoDup.
  - by apply delete_NoDup.
  - apply NoDup_nil_2.
Qed.

Lemma get_elem_of {V} k (v : V) m :
  NoDup m.*1 → (k, v) ∈ m → JsMap.get k m = Some v.
Proof.
  unfold JsMap.get. induction m as [|kv m IH]; [by intros _ ?%elem_of_nil|].
  rewrite fmap_cons, NoDup_cons, elem_of_cons. intros [Hkv Hm] Hin. simpl.
  case_decide as Hk.
  - destruct Hin as [E|Hin]; [by subst kv|]. exfalso. apply Hkv. rewrite Hk.
    apply list_elem_of_fmap. by exists (k, v).
  - destruct Hin as [E|Hin]; [by subst kv|]. specialize (IH Hm Hin).
    destruct (list_find _ m) as [[? ?]|]; by simplify_eq/=.
Qed.

Lemma toLowerCase_length_le s : length s ≤ length (toLowerCase s).
Proof.
  unfold toLowerCase. induction s as [|c s IH]; [done|].
  change (S (length s) ≤ length (lower_unit c ++ concat (lower_unit <$> s))).
  rewrite length_app. pose proof (lower_unit_nonempty c).
  destruct (lower_unit c); [done|]. simpl. lia.
Qed.

(** Where C10 holds.  After any sequence of index operations, a match of
    [search] names a block whose content is retained, ends [query.length]
    after its start, and carries the slice of the retained content between
    its offsets; and it ends within that content when the content has no
    U+0130, the letter that lower-casing lengthens. *)
Lemma search_matches ops query m :
  let si := run ops empty in
  m ∈ search query si →
  ∃ content,
    JsMap.get (blockId m) (blockContents si) = Some content
    ∧ endIndex m = startIndex m + length query
    ∧ text m = substring content (startIndex m) (endIndex m)
    ∧ (304%N ∉ content → endIndex m ≤ length content).
Proof.
  intros si Hm.
  destruct (decide (trim query = [])) as [Ht|Ht].
  { unfold search in Hm. rewrite decide_True in Hm by done. by apply elem_of_nil in Hm. }
  apply search_spec in Hm as (id & content & i & Hin & Hocc & ->); [|done].
  exists content. simpl. split; [|split; [done|split; [done|]]].
  - apply get_elem_of; [|done]. apply run_NoDup. simpl. apply NoDup_nil_2.
  - intros Hc. apply occurs_at_bound in Hocc;
      [|by apply toLowerCase_nonempty, trim_nonempty].
    rewrite (toLowerCase_length content) in Hocc by done.
    pose proof (toLowerCase_length_le query). lia.
Qed.

(** C10 at "İstanbul".  With the one block "İstanbul" indexed, the search
    for "l" returns one match, at [8,9) with the empty text, while the
    retained content has 8 code units: the offsets are those of the
    lower-cased content, which is one unit longer. *)
Theorem C10_match_past_the_content :
  let content := 304%N :: lit "stanbul" in
  let si := run [OpIndexBlock (lit "b") content] empty in
  search (lit "l") si = [mkMatch (lit "b") 8 9 []]
  ∧ JsMap.get (lit "b") (blockContents si) = Some content
  ∧ length content = 8.
Proof. by vm_compute. Qed.

End SearchFacts.

(** ** The virtual window *)

Section VirtualWindowFacts.

Import VirtualWindow.

(** [Math.floor(a / b)] on integers. *)
Lemma Math_floor_div (a b : Z) :
  (0 < b)%Z → Math_floor (inject_Z a / inject_Z b) = (a `div` b)%Z.
Proof.
  intros Hb. destruct b as [|p|p]; try lia.
  unfold Math_floor, Qfloor, Qdiv, Qinv, Qmult, inject_Z. simpl.
  by rewrite Z.mul_1_r.
Qed.

Lemma startIndex_eq scrollTop :
  startIndex scrollTop = Z.max 0 (scrollTop `div` 100 - 5).
Proof. unfold startIndex, ITEM_HEIGHT_ESTIMATE, OVERSCAN. by rewrite Math_floor_div. Qed.

Lemma endIndex_eq n scrollTop viewportHeight :
  endIndex n scrollTop viewportHeight
  = Z.min n (- ((- (scrollTop + viewportHeight)) `div` 100) + 5).
Proof. unfold endIndex, ITEM_HEIGHT_ESTIMATE, OVERSCAN. by rewrite Math_ceil_div. Qed.

(** The uniform layout of five blocks of 100 pixels. *)
Lemma near_uniform_five : near_uniform [100; 100; 100; 100; 100]%Z.
Proof.
  intros i Hi. simpl in Hi.
  do 5 (destruct i as [|i]; [by vm_compute|]). lia.
Qed.

Lemma range_covers heights scrollTop viewportHeight i :
  near_uniform heights →
  intersects heights scrollTop viewportHeight i →
  in_range heights scrollTop viewportHeight i.
Proof.
  intros Hnear (Hi & Htop & Hbottom).
  destruct (Hnear i Hi) as [Hlo Hhi].
  unfold in_range, ITEM_HEIGHT_ESTIMATE, OVERSCAN in *.
  rewrite startIndex_eq, endIndex_eq.
  assert (scrollTop `div` 100 < Z.of_nat i + 1 + 5)%Z
    by (apply Z.div_lt_upper_bound; lia).
  assert ((- (scrollTop + viewportHeight)) `div` 100 < 5 - Z.of_nat i)%Z
    by (apply Z.div_lt_upper_bound; lia).
  lia.
Qed.

(** C4 (as the code has it).  The window takes every block for 100 pixels
    high and adds 5 blocks on each side; it does not read the heights.  Its
    range covers every block that meets the viewport when the layout stays
    within that margin of the uniform one; and for five blocks of 100
    pixels, a viewport of 250 and no scroll, it covers the indices 0 to 3
    (it is [0,5)). *)
Theorem C4_range_covers_viewport :
  (∀ heights scrollTop viewportHeight i,
     near_uniform heights →
     intersects heights scrollTop viewportHeight i →
     in_range heights scrollTop viewportHeight i)
  ∧ startIndex 0 = 0%Z
  ∧ endIndex 5 0 250 = 5%Z
  ∧ (∀ i, i ≤ 3 → in_range [100; 100; 100; 100; 100]%Z 0 250 i).
Proof.
  split; [exact range_covers|]. split; [done|]. split; [done|].
  intros i Hi. unfold in_range.
  change (startIndex 0) with 0%Z. change (endIndex _ 0 250) with 5%Z. lia.
Qed.

(** C4 at the third of five blocks of 100 pixels. *)
Lemma C4_witness :
  near_uniform [100; 100; 100; 100; 100]%Z
  ∧ intersects [100; 100; 100; 100; 100]%Z 0 250 2
  ∧ in_range [100; 100; 100; 100; 100]%Z 0 250 2.
Proof.
  assert (H1 : intersects [100; 100; 100; 100; 100]%Z 0 250 2).
  { repeat split; [simpl; lia|by vm_compute..]. }
  exact (conj near_uniform_five (conj H1
           (proj1 C4_range_covers_viewport _ 0%Z 250%Z 2 near_uniform_five H1))).
Defined.

(** C4 as stated fails: of twenty blocks of 64 pixels under a viewport of
    1000 with no scroll, block 15 lies at [960, 1024) and meets the
    viewport, and the range is [0, 15). *)
Lemma C4_counterexample :
  intersects Examples.short_blocks 0 1000 15
  ∧ startIndex 0 = 0%Z
  ∧ endIndex (Z.of_nat (length Examples.short_blocks)) 0 1000 = 15%Z
  ∧ ¬ in_range Examples.short_blocks 0 1000 15.
Proof.
  split; [repeat split; [simpl; lia|by vm_compute..]|].
  split; [done|]. split; [done|].
  unfold in_range.
  change (endIndex (Z.of_nat (length Examples.short_blocks)) 0 1000) with 15%Z.
  lia.
Qed.

End VirtualWindowFacts.

(** ** The chat route *)

Section ChatFacts.

Import Sse Chat.

(** *** Responses that stay open *)

Lemma continues_refl res : writableEnded res = false → continues res res.
Proof.
  intros Hopen. split; [done|]. exists [].
  split; [by rewrite app_nil_r|constructor].
Qed.

Lemma continues_trans res1 res2 res3 :
  continues res1 res2 → continues res2 res3 → continues res1 res3.
Proof.
  intros (_ & evs1 & E1 & H1) (Hopen & evs2 & E2 & H2). split; [done|].
  exists (evs1 ++ evs2). rewrite E2, E1, (assoc_L (++)). split; [done|].
  by apply Forall_app.
Qed.

Lemma send_continues ty data res :
  writableEnded res = false → continues res (send ty data res).
Proof.
  intros Hopen. unfold send. rewrite Hopen. split; [done|].
  exists [Event ty data]. split; [done|]. by repeat constructor.
Qed.

Lemma on_emission_continues env x em :
  writableEnded x.2 = false → continues x.2 (on_emission env x em).2.
Proof.
  destruct x as [[loc sv] res]. simpl. intros Hopen.
  destruct em as [id model|[idx cb|idx d|idx|]]; simpl.
  - by apply send_continues.
  - destruct cb; by apply send_continues.
  - destruct (truthy _); [|by apply continues_refl].
    destruct d as [[|]|[|]|[|]|]; simpl;
      try (by apply continues_refl); by apply send_continues.
  - destruct (truthy _); [|by apply continues_refl]. by apply send_continues.
  - by apply continues_refl.
Qed.

Lemma deliver_continues env ems sv res :
  writableEnded res = false → continues res (deliver env ems sv res).2.
Proof.
  unfold deliver. generalize (mkLocals None None ∅). intros loc.
  change res with ((loc, sv, res).2) at 1 2.
  generalize (loc, sv, res). clear. intros x Hopen.
  enough (continues x.2 (foldl (on_emission env) x ems).2) as H.
  { by destruct (foldl _ _ _) as [[? ?] ?]. }
  revert x Hopen. induction ems as [|em ems IH]; intros x Hopen; simpl.
  - by apply continues_refl.
  - pose proof (on_emission_continues env x em Hopen) as Hstep.
    eapply continues_trans; [done|]. apply IH. by destruct Hstep.
Qed.

Lemma run_tool_continues env x b :
  writableEnded x.1.2 = false → continues x.1.2 (run_tool env x b).1.2.
Proof.
  destruct x as [[sv res] results]. simpl. intros Hopen.
  destruct b; simpl; try (by apply continues_refl). by apply send_continues.
Qed.

Lemma run_tools_continues env blocks x :
  writableEnded x.1.2 = false →
  continues x.1.2 (foldl (run_tool env) x blocks).1.2.
Proof.
  revert x. induction blocks as [|b blocks IH]; intros x Hopen; simpl.
  - by apply continues_refl.
  - pose proof (run_tool_continues env x b Hopen) as Hstep.
    eapply continues_trans; [done|]. apply IH. by destruct Hstep.
Qed.

(** *** A turn that completes *)

(** The response after the [message_stop] of a completed turn: the events
    of the turn, the [message_stop], and the end unless the turn stopped for
    tool use. *)
Lemma completed_turn env ems final rest msg sv res :
  writableEnded res = false →
  ∃ sv1 res1,
    continues res res1
    ∧ sendMessage env (Completes ems final :: rest) msg sv res
      = (if decide (stop_reason final = Some (lit "tool_use"))
         then handleToolUse env (sendMessage env rest) (final_content final) sv1
                (send message_stop
                   (DMessageStop (final_id final) (lit "tool_use")
                      (input_tokens final) (output_tokens final)) res1)
         else (sv1,
               close (send message_stop
                  (DMessageStop (final_id final)
                     (default (lit "end_turn") (truthy (stop_reason final)))
                     (input_tokens final) (output_tokens final)) res1))).
Proof.
  intros Hopen. cbn [sendMessage].
  set (sv0 := set_inFlight _ _).
  pose proof (deliver_continues env ems sv0 res Hopen) as Hd.
  destruct (deliver env ems sv0 res) as [sv2 res2]. simpl in Hd.
  eexists _, res2. split; [done|].
  unfold onMessageStop.
  destruct (decide (stop_reason final = Some (lit "tool_use"))) as [E|E].
  - rewrite E. reflexivity.
  - rewrite decide_True; [done|].
    intros Heq. apply E. destruct (stop_reason final) as [[|c r]|]; [done| |done].
    simpl in Heq. by rewrite Heq.
Qed.

Lemma send_open ty data res :
  writableEnded res = false →
  written (send ty data res) = written res ++ [Event ty data]
  ∧ writableEnded (send ty data res) = false.
Proof. intros Hopen. unfold send. by rewrite Hopen. Qed.

Lemma close_open res :
  writableEnded res = false →
  written (close res) = written res ++ [End_] ∧ writableEnded (close res) = true.
Proof. intros Hopen. unfold close, closeSSE. simpl. by rewrite Hopen. Qed.

Lemma closes_no_end evs : no_end evs → filter (λ o, is_end o) evs = [].
Proof.
  induction 1 as [|o evs Ho _ IH]; [done|].
  rewrite filter_cons, decide_False; [done|]. rewrite Ho. by intros [].
Qed.

(** C3.  When the first turn of an exchange stops with "tool_use" and the
    turn that continues it stops with "end_turn", the response carries the
    [message_stop] of the first turn, then events, then the [message_stop]
    of the second turn and right after it the end of the stream; nothing
    ends the stream before: the end is written once. *)
Theorem C3_one_terminal_signal env ems1 final1 ems2 final2 rest req msg sv :
  truthy (message req) = Some msg →
  isConfigured sv = true →
  stop_reason final1 = Some (lit "tool_use") →
  stop_reason final2 = Some (lit "end_turn") →
  ∃ res before between,
    (post env (Completes ems1 final1 :: Completes ems2 final2 :: rest) req sv).2
    = EventStream res
    ∧ written res
      = before ++ [stop_event final1] ++ between ++ [stop_event final2; End_]
    ∧ no_end before ∧ no_end between
    ∧ closes res = 1.
Proof.
  intros Hmsg Hconf Hstop1 Hstop2. unfold post. rewrite Hmsg, Hconf.
  set (sv1 := match truthy (systemPrompt req) with Some _ => _ | None => _ end).
  set (res0 := send connected DConnected createSSEHandler).
  assert (Hopen0 : writableEnded res0 = false) by done.
  (* the first turn *)
  destruct (completed_turn env ems1 final1 (Completes ems2 final2 :: rest)
              msg sv1 res0 Hopen0) as (svA & res1 & (Hopen1 & evs1 & E1 & N1) & ->).
  rewrite decide_True by done. unfold handleToolUse.
  set (stop1 := send message_stop _ res1).
  destruct (send_open message_stop
              (DMessageStop (final_id final1) (lit "tool_use")
                 (input_tokens final1) (output_tokens final1)) res1 Hopen1)
    as [Ew1 Hopen1'].
  (* the tools *)
  pose proof (run_tools_continues env (final_content final1) (svA, stop1, [])
                Hopen1') as (Hopen2 & evs2 & E2 & N2).
  destruct (foldl (run_tool env) (svA, stop1, []) (final_content final1))
    as [[svB res2] results]. simpl in Hopen2, E2.
  (* the second turn *)
  destruct (completed_turn env ems2 final2 rest []
              (push_message (mkMessage user (MToolResults results)) svB) res2 Hopen2)
    as (svC & res3 & (Hopen3 & evs3 & E3 & N3) & ->).
  rewrite decide_False by (rewrite Hstop2; by intros [=]).
  set (data2 := DMessageStop _ _ _ _).
  destruct (send_open message_stop data2 res3 Hopen3) as [Ew3 Hopen3'].
  destruct (close_open _ Hopen3') as [Ec _].
  eexists _, (written res0 ++ evs1), (evs2 ++ evs3). split; [done|].
  assert (Hw : written (close (send message_stop data2 res3))
               = (written res0 ++ evs1) ++ [stop_event final1]
                 ++ (evs2 ++ evs3) ++ [stop_event final2; End_]).
  { rewrite Ec, Ew3, E3, E2. subst stop1. rewrite Ew1, E1.
    unfold stop_event. rewrite Hstop1. subst data2.
    by rewrite <- !(assoc_L (++)). }
  split; [done|]. split; [apply Forall_app; split; [by repeat constructor|done]|].
  split; [by apply Forall_app|].
  unfold closes. rewrite Hw. rewrite !filter_app.
  rewrite (closes_no_end evs1), (closes_no_end evs2), (closes_no_end evs3) by done.
  reflexivity.
Qed.

(** C3 at the example exchange: a call of the tool [LS], then the
    answer. *)
Lemma C3_witness :
  truthy (message (Examples.request "hi")) = Some (lit "hi")
  ∧ isConfigured Examples.server0 = true
  ∧ stop_reason Examples.tool_final = Some (lit "tool_use")
  ∧ stop_reason Examples.text_final = Some (lit "end_turn")
  ∧ ∃ res before between,
      (post Examples.env
         [Completes Examples.tool_emissions Examples.tool_final;
          Completes Examples.text_emissions Examples.text_final]
         (Examples.request "hi") Examples.server0).2
      = EventStream res
      ∧ written res
        = before ++ [stop_event Examples.tool_final] ++ between
          ++ [stop_event Examples.text_final; End_]
      ∧ no_end before ∧ no_end between
      ∧ closes res = 1.
Proof.
  exact (conj eq_refl (conj eq_refl (conj eq_refl (conj eq_refl
           (C3_one_terminal_signal Examples.env
              Examples.tool_emissions Examples.tool_final
              Examples.text_emissions Examples.text_final []
              (Examples.request "hi") (lit "hi") Examples.server0
              eq_refl eq_refl eq_refl eq_refl))))).
Defined.

(** *** No check for a turn under way *)

Lemma setSystemPrompt_inFlight env prompt sv :
  inFlight (setSystemPrompt env prompt sv) = inFlight sv.
Proof. done. Qed.

(** C2 (as the code has it).  The route has no check for a turn under way:
    whatever the state of the store, it answers 400 to a message that is
    missing or empty and 500 when the client is not configured, and
    otherwise opens an event stream; and with the model yet to answer, the
    store's heap ends with a new user block holding the message, and one
    more request to the model is under way. *)
Theorem C2_no_check_for_a_turn_under_way env req sv :
  (truthy (message req) = None →
   ∀ script, post env script req sv = (sv, JsonError 400 (lit "Message is required")))
  ∧ (∀ msg, truthy (message req) = Some msg → isConfigured sv = false →
     ∀ script, post env script req sv
               = (sv, JsonError 500 (lit "ANTHROPIC_API_KEY not configured")))
  ∧ (∀ msg, truthy (message req) = Some msg → isConfigured sv = true →
     (∀ script, ∃ res, (post env script req sv).2 = EventStream res)
     ∧ ∃ sv' b,
         post env [] req sv
         = (sv', EventStream (send connected DConnected createSSEHandler))
         ∧ inFlight sv' = S (inFlight sv)
         ∧ last (Store.blockHeap (store sv')) = Some b
         ∧ Store.block_type b = Store.USER
         ∧ Store.content b = msg
         ∧ Store.isStreaming b = false).
Proof.
  split; [|split].
  - intros Hmsg script. unfold post. by rewrite Hmsg.
  - intros msg Hmsg Hconf script. unfold post. by rewrite Hmsg, Hconf.
  - intros msg Hmsg Hconf. split.
    + intros script. unfold post. rewrite Hmsg, Hconf.
      destruct (sendMessage _ _ _ _ _) as [sv2 res2]. by exists res2.
    + unfold post. rewrite Hmsg, Hconf.
      set (sv1 := match truthy (systemPrompt req) with Some _ => _ | None => _ end).
      assert (E : inFlight sv1 = inFlight sv).
      { subst sv1. by destruct (truthy (systemPrompt req)). }
      eexists _, _. split; [reflexivity|]. simpl. rewrite E.
      split; [done|]. by rewrite last_snoc.
Qed.

(** C2 at a second message sent while the answer to the first is
    streaming. *)
Lemma C2_witness :
  truthy (message (Examples.request "second")) = Some (lit "second")
  ∧ isConfigured Examples.server_streaming = true
  ∧ (∀ script, ∃ res,
       (post Examples.env script (Examples.request "second")
          Examples.server_streaming).2 = EventStream res)
  ∧ ∃ sv' b,
      post Examples.env [] (Examples.request "second") Examples.server_streaming
      = (sv', EventStream (send connected DConnected createSSEHandler))
      ∧ inFlight sv' = S (inFlight Examples.server_streaming)
      ∧ last (Store.blockHeap (store sv')) = Some b
      ∧ Store.block_type b = Store.USER
      ∧ Store.content b = lit "second"
      ∧ Store.isStreaming b = false.
Proof.
  exact (conj eq_refl (conj eq_refl
           (proj2 (proj2 (C2_no_check_for_a_turn_under_way Examples.env
                            (Examples.request "second") Examples.server_streaming))
              (lit "second") eq_refl eq_refl))).
Defined.

(** C2 as stated fails: with a block still streaming and one request to the
    model under way, a second message is not refused; the route opens an
    event stream for it and a second request to the model is under way. *)
Lemma C2_counterexample :
  streaming Examples.server_streaming
  ∧ inFlight Examples.server_streaming = 1
  ∧ ∃ sv',
      post Examples.env [] (Examples.request "second") Examples.server_streaming
      = (sv', EventStream (mkResponse false [Event connected DConnected] true))
      ∧ inFlight sv' = 2.
Proof.
  split; [|split; [reflexivity|]].
  - eexists. split; [apply list_elem_of_lookup; exists 1; reflexivity|].
    reflexivity.
  - eexists. split; reflexivity.
Qed.

End ChatFacts.

(** ** Further properties of the Context Store *)

Section StoreHeights.

Import Store Height.

Lemma occurrences_app u (s t : jsstring) :
  occurrences u (s ++ t) = occurrences u s + occurrences u t.
Proof. unfold occurrences. by rewrite filter_app, length_app. Qed.

Lemma ceil_div_mono (a b c : Z) :
  (0 < c)%Z → (a ≤ b)%Z → (- ((- a) `div` c) ≤ - ((- b) `div` c))%Z.
Proof.
  intros Hc Hab. assert ((- b) `div` c ≤ (- a) `div` c)%Z; [|lia].
  apply Z.div_le_mono; lia.
Qed.

Lemma server_estimateHeight_ge content :
  (64 ≤ Server.estimateHeight content)%Z.
Proof. rewrite server_estimateHeight_eq. lia. Qed.

Lemma server_estimateHeight_app c d :
  (Server.estimateHeight c ≤ Server.estimateHeight (c ++ d))%Z.
Proof.
  rewrite !server_estimateHeight_eq, occurrences_app, length_app.
  pose proof (ceil_div_mono (Z.of_nat (length c))
                (Z.of_nat (length c + length d)) 80).
  lia.
Qed.

(** X1.  The server's estimate is at least 64 for every content (one line
    of 24 pixels and 40 of padding: the floor of 60 never decides), and
    appending to a content never lowers it. *)
Theorem X1_server_estimate_floor_and_growth :
  (∀ content, (64 ≤ Server.estimateHeight content)%Z)
  ∧ (∀ content delta,
       (Server.estimateHeight content
        ≤ Server.estimateHeight (content ++ delta))%Z).
Proof. split; [exact server_estimateHeight_ge|exact server_estimateHeight_app]. Qed.

(** *** The estimated height of a block object *)

Lemma heights_grow_refl h : heights_grow h h.
Proof. intros Hh. split; [done|]. intros a b ?. exists b. split; [done|lia]. Qed.

Lemma heights_grow_trans h1 h2 h3 :
  heights_grow h1 h2 → heights_grow h2 h3 → heights_grow h1 h3.
Proof.
  intros H12 H23 Hh. destruct (H12 Hh) as [Hh2 M12].
  destruct (H23 Hh2) as [Hh3 M23]. split; [done|].
  intros a b Hb. destruct (M12 a b Hb) as (b2 & Hb2 & ?).
  destruct (M23 a b2 Hb2) as (b3 & Hb3 & ?). exists b3. split; [done|lia].
Qed.

Lemma heights_grow_snoc h b :
  (estimatedHeight b ≤ Server.estimateHeight (content b))%Z →
  heights_grow h (h ++ [b]).
Proof.
  intros Hb Hh. split.
  - intros a b0. rewrite lookup_app_Some. intros [?|[_ Hl]]; [by eapply Hh|].
    apply list_lookup_singleton_Some in Hl as [_ <-]. done.
  - intros a b0 Hb0. exists b0. split; [by apply lookup_app_l_Some|lia].
Qed.

Lemma heights_grow_alter f a h :
  (∀ b, (estimatedHeight b ≤ Server.estimateHeight (content b))%Z →
        (estimatedHeight b ≤ estimatedHeight (f b))%Z
        ∧ (estimatedHeight (f b) ≤ Server.estimateHeight (content (f b)))%Z) →
  heights_grow h (alter f a h).
Proof.
  intros Hf Hh. split.
  - intros a0 b0. destruct (decide (a = a0)) as [->|Hne].
    + rewrite list_lookup_alter_eq. destruct (h !! a0) as [b|] eqn:E; [|done].
      intros [= <-]. by apply Hf, (Hh a0).
    + rewrite list_lookup_alter_ne by done. apply Hh.
  - intros a0 b0 Hb0. destruct (decide (a = a0)) as [->|Hne].
    + exists (f b0). rewrite list_lookup_alter_eq, Hb0. split; [done|].
      by apply Hf, (Hh a0).
    + exists b0. rewrite list_lookup_alter_ne by done. split; [done|lia].
Qed.

Lemma addBlock_heights e ty text md st :
  heights_grow (blockHeap st) (blockHeap (addBlock e ty text md st).1).
Proof. apply heights_grow_snoc. simpl. lia. Qed.

Lemma setTools_heights now ts st :
  heights_grow (blockHeap st) (blockHeap (setTools now ts st).1).
Proof.
  unfold setTools.
  set (st0 := mkState _ _ _).
  change (blockHeap st) with (blockHeap (st0, @nil addr).1).
  generalize (st0, @nil addr). clear st0.
  induction ts as [|te ts IH]; intros acc; simpl; [apply heights_grow_refl|].
  eapply heights_grow_trans; [|apply IH]. simpl. apply addBlock_heights.
Qed.

Lemma exec_heights op st :
  heights_grow (blockHeap st) (blockHeap (exec op st)).
Proof.
  destruct op; cbn [exec].
  - unfold setSystemPrompt. apply (addBlock_heights _ _ _ _ (mkState _ _ _)).
  - apply setTools_heights.
  - apply addBlock_heights.
  - apply heights_grow_snoc. simpl. pose proof (server_estimateHeight_ge []). lia.
  - unfold appendToBlock. destruct (find_block _ _); [|apply heights_grow_refl].
    simpl. apply heights_grow_alter. intros b Hb. simpl.
    pose proof (server_estimateHeight_app (content b) delta). lia.
  - unfold finalizeBlock. destruct (find_block _ _); [|apply heights_grow_refl].
    simpl. apply heights_grow_alter. intros b Hb. simpl. lia.
  - apply heights_grow_refl.
  - apply heights_grow_refl.
Qed.

Lemma run_heights ops st :
  heights_grow (blockHeap st) (blockHeap (run ops st)).
Proof.
  revert st. induction ops as [|op ops IH]; intros st; simpl.
  - apply heights_grow_refl.
  - eapply heights_grow_trans; [apply exec_heights|apply IH].
Qed.

Lemma constructor_heights uuid now : heights_bounded (blockHeap (constructor uuid now)).
Proof. by intros a b. Qed.

(** X2.  In every state the store reaches, no later sequence of operations
    lowers the estimated height of a block object: streaming only makes a
    block taller. *)
Theorem X2_estimated_height_never_decreases uuid0 t0 history ops a b :
  let st := run history (constructor uuid0 t0) in
  blockHeap st !! a = Some b →
  ∃ b', blockHeap (run ops st) !! a = Some b'
        ∧ (estimatedHeight b ≤ estimatedHeight b')%Z.
Proof.
  intros st Hb.
  destruct (run_heights history (constructor uuid0 t0)
              (constructor_heights uuid0 t0)) as [Hst _].
  destruct (run_heights ops st Hst) as [_ Hgrow]. by apply Hgrow.
Qed.

(** X2 at the streaming block of the example store, whose height of 64
    becomes 88 with a content of two lines. *)
Lemma X2_witness :
  blockHeap Examples.store_streaming !! 0
  = Some (mkBlock (lit "b1") ASSISTANT_TEXT (lit "a") 1 None true 64)
  ∧ ∃ b', blockHeap
            (run [OpAppendToBlock 3 (lit "b1") [LF]] Examples.store_streaming) !! 0
          = Some b'
          ∧ (64 ≤ estimatedHeight b')%Z.
Proof.
  split; [reflexivity|].
  exact (X2_estimated_height_never_decreases (lit "c0") 0
           [OpCreateStreamingBlock (mkFresh (lit "b1") 1 1) ASSISTANT_TEXT None;
            OpAppendToBlock 2 (lit "b1") (lit "a")]
           [OpAppendToBlock 3 (lit "b1") [LF]] 0
           (mkBlock (lit "b1") ASSISTANT_TEXT (lit "a") 1 None true 64) eq_refl).
Defined.

End StoreHeights.

Section StoreBlocks.

Import Store.

(** *** The block sequence of the context *)

Lemma constructor_context_ok uuid now : context_ok (constructor uuid now).
Proof. exists []. split; [done|]. by intros a ?%elem_of_nil. Qed.

Lemma clear_context_ok uuid now st : context_ok (clear uuid now st).
Proof.
  exists []. split; [|by intros a ?%elem_of_nil]. simpl.
  by rewrite lookup_app_r, Nat.sub_diag.
Qed.

Lemma clear_deref uuid now st :
  deref (clear uuid now st) (context (clear uuid now st)) = [].
Proof.
  unfold deref, blockRefs. simpl. by rewrite lookup_app_r, Nat.sub_diag.
Qed.

(** A new block object goes to the end of the sequence. *)
Lemma push_deref b now st :
  context_ok st →
  let st' := touch now (push_block b st).1 in
  context_ok st' ∧ deref st' (context st') = deref st (context st) ++ [b].
Proof.
  intros (arr & Harr & Hvalid). simpl. split.
  - exists (arr ++ [length (blockHeap st)]). simpl. split.
    + by rewrite list_lookup_alter_eq, Harr.
    + intros a. rewrite length_app, elem_of_app, list_elem_of_singleton. simpl.
      intros [?%Hvalid| ->]; lia.
  - unfold deref, blockRefs. simpl.
    rewrite list_lookup_alter_eq, Harr. simpl.
    rewrite omap_app. simpl. rewrite lookup_app_r, Nat.sub_diag by done. simpl.
    f_equal. apply list_omap_ext, Forall_Forall2_diag, Forall_forall.
    intros a Ha. apply lookup_app_l. by apply Hvalid.
Qed.

Lemma omap_alter_ids f a (h : list ContextBlock) (refs : list addr) :
  (∀ b, block_id (f b) = block_id b) →
  block_id <$> omap (λ a0, alter f a h !! a0) refs
  = block_id <$> omap (λ a0, h !! a0) refs.
Proof.
  intros Hf. induction refs as [|a0 refs IH]; [done|]. csimpl.
  destruct (decide (a = a0)) as [->|Hne].
  - rewrite list_lookup_alter_eq. destruct (h !! a0); csimpl; [|done].
    by rewrite Hf, IH.
  - rewrite list_lookup_alter_ne by done.
    destruct (h !! a0); csimpl; [|done]. by rewrite IH.
Qed.

(** Changing a block object in place keeps the ids of the sequence. *)
Lemma alter_block_ids f a now st :
  (∀ b, block_id (f b) = block_id b) →
  let st' := touch now (mkState (alter f a (blockHeap st)) (arrayHeap st) (context st)) in
  (context_ok st → context_ok st') ∧ block_ids st' = block_ids st.
Proof.
  intros Hf. simpl. split.
  - intros (arr & Harr & Hvalid). exists arr. simpl. split; [done|].
    intros a0 Ha0. rewrite length_alter. by apply Hvalid.
  - unfold block_ids, deref, blockRefs. simpl. by apply omap_alter_ids.
Qed.

Lemma addBlock_block_ids e ty text md st :
  context_ok st →
  context_ok (addBlock e ty text md st).1
  ∧ block_ids (addBlock e ty text md st).1 = block_ids st ++ [fresh_id e].
Proof.
  intros Hok. destruct (push_deref
    (mkBlock (fresh_id e) ty text (stamp e) md false
       (Height.Server.estimateHeight text)) (bump e) st Hok) as [Hok' Hd].
  split; [done|]. unfold block_ids. simpl in *. by rewrite Hd, fmap_app.
Qed.

Lemma setTools_block_ids now ts st :
  context_ok st →
  context_ok (setTools now ts st).1
  ∧ block_ids (setTools now ts st).1
    = block_ids st ++ ((λ te, fresh_id te.2) <$> ts).
Proof.
  intros Hok. unfold setTools. set (st0 := mkState _ _ _).
  assert (H0 : context_ok (st0, @nil addr).1 ∧ block_ids (st0, @nil addr).1 = block_ids st)
    by done.
  revert H0. generalize (st0, @nil addr). clear st0 Hok.
  generalize (block_ids st). intros ids.
  revert ids. induction ts as [|te ts IH]; intros ids acc [Hok Hids]; simpl.
  - by rewrite app_nil_r.
  - specialize (IH (ids ++ [fresh_id te.2])).
    rewrite <- (assoc_L (++)) in IH. apply IH.
    destruct (addBlock_block_ids te.2 TOOL_DEFINITION (tool_json te.1)
                (Some {[ "toolName" := VString (tool_name te.1) ]}) acc.1 Hok)
      as [Hok' Hids'].
    split; [exact Hok'|]. by rewrite <- Hids.
Qed.

Lemma exec_block_ids op st :
  context_ok st →
  context_ok (exec op st)
  ∧ block_ids (exec op st) = ids_after (block_ids st) op.
Proof.
  intros Hok. destruct op; cbn [exec ids_after is_clear op_fresh_ids].
  - unfold setSystemPrompt. set (st0 := mkState _ _ _).
    assert (Hok0 : context_ok st0) by (destruct Hok as (arr & ? & ?); by exists arr).
    by destruct (addBlock_block_ids e SYSTEM prompt None st0 Hok0) as [? ->].
  - by apply setTools_block_ids.
  - by apply addBlock_block_ids.
  - destruct (push_deref (mkBlock (fresh_id e) ty [] (stamp e) md true 50)
                (bump e) st Hok) as [Hok' Hd].
    split; [done|]. unfold block_ids. simpl in *. by rewrite Hd, fmap_app.
  - unfold appendToBlock. destruct (find_block _ _) as [a|]; simpl.
    + rewrite app_nil_r.
      destruct (alter_block_ids (append_content delta) a now st) as [H1 H2]; [done|].
      split; [by apply H1|done].
    + by rewrite app_nil_r.
  - unfold finalizeBlock. destruct (find_block _ _) as [a|]; simpl.
    + rewrite app_nil_r.
      destruct (alter_block_ids (finalize patch) a now st) as [H1 H2]; [done|].
      split; [by apply H1|done].
    + by rewrite app_nil_r.
  - rewrite app_nil_r. split; [|done]. destruct Hok as (arr & ? & ?). by exists arr.
  - split; [apply clear_context_ok|]. unfold block_ids. by rewrite clear_deref.
Qed.

Lemma run_block_ids ops st :
  context_ok st →
  context_ok (run ops st)
  ∧ block_ids (run ops st) = foldl ids_after (block_ids st) ops.
Proof.
  revert st. induction ops as [|op ops IH]; intros st Hok; simpl; [done|].
  destruct (exec_block_ids op st Hok) as [Hok' <-]. by apply IH.
Qed.

Lemma run_constructor_context_ok uuid now ops :
  context_ok (run ops (constructor uuid now)).
Proof. apply run_block_ids, constructor_context_ok. Qed.

(** X3.  The blocks of the store's context are, in this order, the blocks
    created since the last [clear] (none before the first operation):
    operations add blocks at the end only, and nothing but [clear] removes
    or reorders them. *)
Theorem X3_block_sequence_is_arrival_order uuid now ops :
  block_ids (run ops (constructor uuid now)) = foldl ids_after [] ops.
Proof. apply (run_block_ids ops (constructor uuid now)), constructor_context_ok. Qed.

(** *** Distinct ids *)

Lemma ids_after_sublist ops acc :
  foldl ids_after acc ops `sublist_of` acc ++ concat (op_fresh_ids <$> ops).
Proof.
  revert acc. induction ops as [|op ops IH]; intros acc; simpl.
  - by rewrite app_nil_r.
  - unfold ids_after at 2. destruct (is_clear op).
    + etrans; [apply IH|]. simpl. apply sublist_inserts_l, sublist_inserts_l. done.
    + etrans; [apply IH|]. by rewrite (assoc_L (++)).
Qed.

(** X4.  When [uuidv4()] never gives the same id twice, no two blocks of
    the store's context have the same id. *)
Theorem X4_block_ids_distinct uuid now ops :
  NoDup (concat (op_fresh_ids <$> ops)) →
  NoDup (block_ids (run ops (constructor uuid now))).
Proof.
  intros Hfresh.
  destruct (run_block_ids ops (constructor uuid now)
              (constructor_context_ok uuid now)) as [_ ->].
  exact (sublist_NoDup _ _ Hfresh (ids_after_sublist ops [])).
Qed.

(** X4 at two blocks with the ids "b1" and "b2". *)
Lemma X4_witness :
  NoDup (concat (op_fresh_ids <$>
           [OpCreateStreamingBlock (mkFresh (lit "b1") 1 1) ASSISTANT_TEXT None;
            OpAddBlock (mkFresh (lit "b2") 2 2) USER (lit "hi") None]))
  ∧ NoDup (block_ids
             (run [OpCreateStreamingBlock (mkFresh (lit "b1") 1 1) ASSISTANT_TEXT None;
                   OpAddBlock (mkFresh (lit "b2") 2 2) USER (lit "hi") None]
                (constructor (lit "c0") 0))).
Proof.
  assert (H : NoDup (concat (op_fresh_ids <$>
           [OpCreateStreamingBlock (mkFresh (lit "b1") 1 1) ASSISTANT_TEXT None;
            OpAddBlock (mkFresh (lit "b2") 2 2) USER (lit "hi") None]))).
  { apply (bool_decide_unpack _). by vm_compute. }
  exact (conj H (X4_block_ids_distinct (lit "c0") 0 _ H)).
Defined.

(** *** Ids that no block has *)

Lemma has_id_block_ids st blockId a :
  a ∈ blockRefs st (context st) → has_id st blockId a → blockId ∈ block_ids st.
Proof.
  unfold has_id, block_ids, deref. intros Ha Hid.
  destruct (blockHeap st !! a) as [b|] eqn:E; [|done]. simpl in Hid.
  injection Hid as <-. apply list_elem_of_fmap. exists b. split; [done|].
  apply list_elem_of_omap. by exists a.
Qed.

Lemma find_block_None st blockId :
  blockId ∉ block_ids st → find_block st blockId = None.
Proof.
  intros Hid. unfold find_block.
  destruct (list_find _ _) as [[i a]|] eqn:E; [|done].
  apply list_find_Some in E as (Hi & Ha & _). exfalso. apply Hid.
  eapply has_id_block_ids; [|done]. by eapply list_elem_of_lookup_2.
Qed.

(** X5.  For an id that no block of the store's context has,
    [appendToBlock] and [finalizeBlock] return [null] and leave the store
    as it is, the time of the last update included, and [getBlock] finds
    nothing. *)
Theorem X5_unknown_id_is_dropped st blockId :
  blockId ∉ block_ids st →
  (∀ now delta, appendToBlock now blockId delta st = (st, None))
  ∧ (∀ now patch, finalizeBlock now blockId patch st = (st, None))
  ∧ getBlock st blockId = None.
Proof.
  intros Hid%find_block_None.
  unfold appendToBlock, finalizeBlock, getBlock. by rewrite Hid.
Qed.

(** X5 at the id "zz" in the example store, whose one block is "b1". *)
Lemma X5_witness :
  (lit "zz" ∉ block_ids Examples.store_streaming)
  ∧ (∀ now delta,
       appendToBlock now (lit "zz") delta Examples.store_streaming
       = (Examples.store_streaming, None))
  ∧ (∀ now patch,
       finalizeBlock now (lit "zz") patch Examples.store_streaming
       = (Examples.store_streaming, None))
  ∧ getBlock Examples.store_streaming (lit "zz") = None.
Proof.
  assert (H : lit "zz" ∉ block_ids Examples.store_streaming).
  { apply (bool_decide_unpack _). by vm_compute. }
  exact (conj H (X5_unknown_id_is_dropped Examples.store_streaming (lit "zz") H)).
Defined.

(** X6.  [clear] installs a context with the new id, the time of the call
    as creation and update time, no blocks and zero totals; and the deltas
    of a turn that was under way, arriving afterwards, change nothing. *)
Theorem X6_clear_drops_the_turn st uuid now deltas :
  let st' := clear uuid now st in
  ctx_id (getContext st') = uuid
  ∧ createdAt (getContext st') = now
  ∧ updatedAt (getContext st') = now
  ∧ deref st' (getContext st') = []
  ∧ totalInputTokens (getContext st') = 0%Z
  ∧ totalOutputTokens (getContext st') = 0%Z
  ∧ run (delta_op <$> deltas) st' = st'.
Proof.
  simpl. repeat split; [apply clear_deref|].
  assert (Hids : ∀ id, id ∉ block_ids (clear uuid now st)).
  { intros id. unfold block_ids. rewrite clear_deref. by intros ?%elem_of_nil. }
  induction deltas as [|d deltas IH]; [done|].
  rewrite fmap_cons. cbn [run foldl].
  replace (exec (delta_op d) (clear uuid now st)) with (clear uuid now st); [done|].
  destruct d as [t id delta|t id patch]; cbn [delta_op exec].
  - unfold appendToBlock. by rewrite (find_block_None _ _ (Hids id)).
  - unfold finalizeBlock. by rewrite (find_block_None _ _ (Hids id)).
Qed.

(** *** Looking up a block after its creation *)

Lemma find_block_push b now st blockId :
  context_ok st →
  find_block (touch now (push_block b st).1) blockId
  = match find_block st blockId with
    | Some a => Some a
    | None => if decide (block_id b = blockId) then Some (length (blockHeap st))
              else None
    end.
Proof.
  intros (arr & Harr & Hvalid). unfold find_block, blockRefs. simpl.
  rewrite list_lookup_alter_eq, Harr. simpl.
  assert (Hsame : ∀ a, a ∈ arr →
            (has_id (touch now (push_block b st).1) blockId a ↔ has_id st blockId a)).
  { intros a Ha. unfold has_id. simpl. by rewrite lookup_app_l by by apply Hvalid. }
  destruct (list_find (has_id st blockId) arr) as [[i a]|] eqn:E.
  - apply list_find_Some in E as (Hi & Ha & Hmin). simpl.
    rewrite (list_find_app_l _ arr _ i a); [done|]. apply list_find_Some. split; [done|].
    split; [apply Hsame; [by eapply list_elem_of_lookup_2|done]|].
    intros j y Hj Hlt Hy. eapply Hmin; [done..|].
    apply Hsame; [by eapply list_elem_of_lookup_2|done].
  - rewrite list_find_app_r.
    2:{ apply list_find_None, Forall_forall. intros a Ha Hid.
        apply list_find_None in E. rewrite Forall_forall in E.
        apply (E a Ha). by apply Hsame. }
    simpl. unfold has_id at 1. simpl.
    assert (Hl : (blockHeap st ++ [b]) !! length (blockHeap st) = Some b)
      by (by apply list_lookup_middle).
    destruct (decide (block_id b = blockId)) as [Heq|Hne].
    + rewrite decide_True; [done|]. unfold has_id. simpl. by rewrite Hl, <- Heq.
    + rewrite decide_False; [done|]. unfold has_id. simpl. rewrite Hl. simpl.
      by intros [= ?].
Qed.

(** X7.  In a state the store reaches, a block created with an id that no
    block of the context has is the block [getBlock] finds under that id
    right after; and what [getBlock] finds under any other id is what it
    found before. *)
Theorem X7_getBlock_after_addBlock uuid0 t0 history e ty text md :
  let st := run history (constructor uuid0 t0) in
  fresh_id e ∉ block_ids st →
  getBlock (addBlock e ty text md st).1 (fresh_id e)
  = Some (mkBlock (fresh_id e) ty text (stamp e) md false
            (Height.Server.estimateHeight text))
  ∧ ∀ blockId, blockId ≠ fresh_id e →
      getBlock (addBlock e ty text md st).1 blockId = getBlock st blockId.
Proof.
  intros st Hfresh.
  pose proof (run_constructor_context_ok uuid0 t0 history) as Hok.
  fold st in Hok. unfold getBlock, addBlock.
  set (b := mkBlock _ _ _ _ _ _ _). split.
  - cbn [fst]. rewrite (find_block_push b (bump e) st) by done.
    rewrite (find_block_None _ _ Hfresh), decide_True by done. simpl.
    by rewrite lookup_app_r, Nat.sub_diag.
  - intros blockId Hne. cbn [fst].
    rewrite (find_block_push b (bump e) st) by done.
    destruct (find_block st blockId) as [a|] eqn:E.
    + simpl. apply lookup_app_l.
      unfold find_block in E.
      destruct (list_find _ _) as [[i a']|] eqn:E'; [|done].
      injection E as <-. apply list_find_Some in E' as (_ & Hid & _).
      unfold has_id in Hid. apply lookup_lt_is_Some.
      by destruct (blockHeap st !! a').
    + rewrite decide_False by done. done.
Qed.

(** X7 at a second block "b2" added to the example store. *)
Lemma X7_witness :
  (lit "b2" ∉ block_ids (run
     [OpCreateStreamingBlock (mkFresh (lit "b1") 1 1) ASSISTANT_TEXT None]
     (constructor (lit "c0") 0)))
  ∧ getBlock
      (addBlock (mkFresh (lit "b2") 2 2) USER (lit "hi") None
         (run [OpCreateStreamingBlock (mkFresh (lit "b1") 1 1) ASSISTANT_TEXT None]
            (constructor (lit "c0") 0))).1 (lit "b2")
    = Some (mkBlock (lit "b2") USER (lit "hi") 2 None false
              (Height.Server.estimateHeight (lit "hi"))).
Proof.
  assert (H : lit "b2" ∉ block_ids (run
     [OpCreateStreamingBlock (mkFresh (lit "b1") 1 1) ASSISTANT_TEXT None]
     (constructor (lit "c0") 0))).
  { apply (bool_decide_unpack _). by vm_compute. }
  exact (conj H (proj1 (X7_getBlock_after_addBlock (lit "c0") 0
           [OpCreateStreamingBlock (mkFresh (lit "b1") 1 1) ASSISTANT_TEXT None]
           (mkFresh (lit "b2") 2 2) USER (lit "hi") None H))).
Defined.

(** *** Appending in pieces *)

Lemma append_content_app d1 d2 b :
  append_content d2 (append_content d1 b) = append_content (d1 ++ d2) b.
Proof. unfold append_content. simpl. by rewrite (assoc_L (++)). Qed.

(** X8.  Appending two deltas one after the other leaves the store as
    appending their concatenation at the time of the second: content and
    estimated height depend on the text received, not on how it was cut. *)
Theorem X8_append_in_pieces t1 t2 blockId d1 d2 st :
  appendToBlock t2 blockId d2 (appendToBlock t1 blockId d1 st).1
  = appendToBlock t2 blockId (d1 ++ d2) st.
Proof.
  unfold appendToBlock.
  destruct (find_block st blockId) as [a|] eqn:Hfind; simpl.
  - rewrite find_block_alter, Hfind by done. simpl.
    rewrite list_alter_alter_eq.
    by rewrite (list_alter_ext (append_content d2 ∘ append_content d1)
                  (append_content (d1 ++ d2)) (blockHeap st) (blockHeap st) a)
      by (intros; simpl; auto using append_content_app).
  - by rewrite Hfind.
Qed.

End StoreBlocks.

Section EscapeHtml.

Import Store.

(** *** [escapeHtml] *)

Lemma replaceAll_app u r (s t : jsstring) :
  replaceAll u r (s ++ t) = replaceAll u r s ++ replaceAll u r t.
Proof. unfold replaceAll. by rewrite fmap_app, concat_app. Qed.

Lemma escapeHtml_app s t : escapeHtml (s ++ t) = escapeHtml s ++ escapeHtml t.
Proof. unfold escapeHtml. by rewrite !replaceAll_app. Qed.

Lemma replaceAll_other u r c : c ≠ u → replaceAll u r [c] = [c].
Proof. intros Hc. unfold replaceAll. simpl. by rewrite decide_False. Qed.

(** The five replacements in a row amount to one pass: no replacement
    brings in a code unit that a later one replaces. *)
Lemma escapeHtml_unit c : escapeHtml [c] = escape_unit c.
Proof.
  unfold escape_unit.
  repeat (case_decide; [subst c; by vm_compute|]).
  unfold escapeHtml. by rewrite !replaceAll_other by done.
Qed.

Lemma escapeHtml_single_pass s : escapeHtml s = concat (escape_unit <$> s).
Proof.
  induction s as [|c s IH]; [done|].
  change (c :: s) with ([c] ++ s).
  by rewrite escapeHtml_app, escapeHtml_unit, IH.
Qed.

Lemma escape_unit_safe c x :
  x ∈ escape_unit c → x ≠ 60%N ∧ x ≠ 62%N ∧ x ≠ 34%N ∧ x ≠ 39%N.
Proof.
  unfold escape_unit.
  repeat (case_decide;
          [intros Hx; apply (bool_decide_unpack _);
           revert x Hx; apply Forall_forall, (bool_decide_unpack _); by vm_compute|]).
  intros ->%list_elem_of_singleton. done.
Qed.

Lemma escape_unit_inj c1 c2 (x y : jsstring) :
  escape_unit c1 ++ x = escape_unit c2 ++ y → c1 = c2 ∧ x = y.
Proof.
  unfold escape_unit.
  repeat (case_decide; [subst c1|]);
  repeat (case_decide; [subst c2|]);
  cbv [lit Ascii.N_of_ascii Pos.of_succ_nat N.of_nat]; simpl;
  intros Heq; by simplify_eq.
Qed.

(** X9.  [escapeHtml] is the one-pass escaping of the five characters
    [& < > " '] by their entities; its result has no [<], [>], ["] or [']
    left; and a text without the five characters comes out as it is. *)
Theorem X9_escapeHtml_escapes :
  (∀ text, escapeHtml text = concat (escape_unit <$> text))
  ∧ (∀ text x, x ∈ escapeHtml text → x ≠ 60%N ∧ x ≠ 62%N ∧ x ≠ 34%N ∧ x ≠ 39%N)
  ∧ (∀ text, Forall (λ c, c ∉ [38; 60; 62; 34; 39]%N) text → escapeHtml text = text).
Proof.
  split; [exact escapeHtml_single_pass|]. split.
  - intros text x. rewrite escapeHtml_single_pass.
    induction text as [|c text IH]; csimpl; [by intros ?%elem_of_nil|].
    rewrite elem_of_app. intros [Hx|Hx]; [by eapply escape_unit_safe|by apply IH].
  - intros text Htext. rewrite escapeHtml_single_pass.
    induction Htext as [|c text Hc _ IH]; [done|]. csimpl. rewrite IH.
    unfold escape_unit. rewrite !not_elem_of_cons in Hc.
    destruct Hc as (? & ? & ? & ? & ? & _). by rewrite !decide_False by done.
Qed.

(** X9 at the text [ab], which has none of the five characters. *)
Lemma X9_witness :
  Forall (λ c, c ∉ [38; 60; 62; 34; 39]%N) (lit "ab")
  ∧ escapeHtml (lit "ab") = lit "ab".
Proof.
  assert (H : Forall (λ c, c ∉ [38; 60; 62; 34; 39]%N) (lit "ab")).
  { apply (bool_decide_unpack _). by vm_compute. }
  exact (conj H (proj2 (proj2 X9_escapeHtml_escapes) (lit "ab") H)).
Defined.

(** X10.  [escapeHtml] loses nothing: two texts with the same escaped form
    are the same text. *)
Theorem X10_escapeHtml_injective s1 s2 :
  escapeHtml s1 = escapeHtml s2 → s1 = s2.
Proof.
  rewrite !escapeHtml_single_pass. revert s2.
  induction s1 as [|c1 s1 IH]; intros [|c2 s2]; csimpl.
  - done.
  - intros H. exfalso. revert H. unfold escape_unit.
    repeat (case_decide; [by vm_compute|]). done.
  - intros H. exfalso. revert H. unfold escape_unit.
    repeat (case_decide; [by vm_compute|]). done.
  - intros [-> H]%escape_unit_inj. by rewrite (IH _ H).
Qed.

(** X10 at the text [a<b]. *)
Lemma X10_witness :
  escapeHtml (lit "a<b") = escapeHtml (lit "a<b") ∧ lit "a<b" = lit "a<b".
Proof.
  exact (conj eq_refl (X10_escapeHtml_injective (lit "a<b") (lit "a<b") eq_refl)).
Defined.

End EscapeHtml.

(** ** Further properties of the event stream and of the exchange *)

Section ExchangeFacts.

Import Sse Chat.

(** *** A response after its end *)

Lemma act_ended res a :
  writableEnded res = true →
  writableEnded (act res a) = true ∧ written (act res a) = written res.
Proof.
  intros Hend. destruct a; simpl.
  - unfold send. by rewrite Hend.
  - unfold close, closeSSE. simpl. by rewrite Hend.
Qed.

Lemma act_tidy res a : tidy res → tidy (act res a).
Proof.
  unfold tidy. destruct (writableEnded res) eqn:Hend.
  - destruct (act_ended res a Hend) as [-> ->]. done.
  - intros Hno. destruct a; simpl.
    + unfold send. rewrite Hend. simpl. rewrite Hend.
      apply Forall_app. split; [done|]. by repeat constructor.
    + unfold close, closeSSE. simpl. rewrite Hend. simpl. by exists (written res).
Qed.

Lemma tidy_closes res :
  tidy res → closes res = if writableEnded res then 1 else 0.
Proof.
  unfold tidy, closes. destruct (writableEnded res).
  - intros (evs & -> & Hno). by rewrite filter_app, (closes_no_end evs Hno).
  - intros Hno. by rewrite (closes_no_end _ Hno).
Qed.

(** X11.  Whatever is sent and closed on a response, in whatever order:
    the end of the stream is written at most once, it is written exactly
    when [close] was called, it is the last output, and what is sent after
    it is dropped. *)
Theorem X11_response_ends_once actions :
  let res := foldl act createSSEHandler actions in
  closes res = (if existsb is_close actions then 1 else 0)
  ∧ tidy res
  ∧ ∀ more, writableEnded res = true →
      written (foldl act res more) = written res.
Proof.
  simpl. split; [|split].
  - assert (H : ∀ res, tidy res →
              writableEnded (foldl act res actions)
              = writableEnded res || existsb is_close actions
              ∧ tidy (foldl act res actions)).
    { induction actions as [|a actions IH]; intros res Ht; simpl.
      - by rewrite orb_false_r.
      - destruct (IH (act res a) (act_tidy res a Ht)) as [-> Ht']. split; [|done].
        destruct a as [ty data|]; simpl.
        + unfold send. destruct (writableEnded res) eqn:E; simpl; by rewrite ?E.
        + unfold close, closeSSE. simpl.
          destruct (writableEnded res) eqn:E; simpl; by rewrite ?E. }
    destruct (H createSSEHandler) as [Hend Ht]; [by constructor|].
    rewrite (tidy_closes _ Ht), Hend. done.
  - induction actions as [|a actions IH] using rev_ind; [by constructor|].
    rewrite foldl_app. simpl. by apply act_tidy.
  - intros more. generalize (foldl act createSSEHandler actions). clear.
    induction more as [|a more IH]; intros res Hend; simpl; [done|].
    destruct (act_ended res a Hend) as [Hend' <-]. by apply IH.
Qed.

(** X11 at a send after a close. *)
Lemma X11_witness :
  writableEnded (foldl act createSSEHandler [Send connected DConnected; Close]) = true
  ∧ written (foldl act (foldl act createSSEHandler [Send connected DConnected; Close])
               [Send message_stop DConnected])
    = written (foldl act createSSEHandler [Send connected DConnected; Close]).
Proof.
  exact (conj eq_refl
           (proj2 (proj2 (X11_response_ends_once [Send connected DConnected; Close]))
              [Send message_stop DConnected] eq_refl)).
Defined.

End ExchangeFacts.

Section ExchangeOutcome.

Import Sse Chat.

(** *** The response of an exchange *)

Lemma asks_for_tools_decide final :
  asks_for_tools final
  = if decide (stop_reason final = Some (lit "tool_use")) then true else false.
Proof. unfold asks_for_tools. by case_decide; [rewrite bool_decide_true|rewrite bool_decide_false]. Qed.

Lemma continues_no_end res res' :
  no_end (written res) → continues res res' → no_end (written res').
Proof. intros Hno (_ & evs & -> & Hevs). by apply Forall_app. Qed.

(** From an open response: the response of the exchange is tidy, it is
    ended exactly when the exchange settles, and the failure that ends the
    exchange is its last event. *)
Lemma sendMessage_response env script msg sv res :
  writableEnded res = false → no_end (written res) →
  let res' := (sendMessage env script msg sv res).2 in
  tidy res'
  ∧ writableEnded res' = settles script
  ∧ ∀ m code, failure script = Some (m, code) →
      ∃ evs, written res' = evs ++ [Event error (DError m code); End_].
Proof.
  revert msg sv res.
  induction script as [|turn rest IH]; intros msg sv res Hopen Hno.
  { cbn [sendMessage]. simpl. unfold tidy. rewrite Hopen. done. }
  destruct turn as [ems final|ems m0 code0|ems].
  - destruct (completed_turn env ems final rest msg sv res Hopen)
      as (sv1 & res1 & Hc1 & ->).
    pose proof (continues_no_end _ _ Hno Hc1) as Hno1. destruct Hc1 as [Hopen1 _].
    cbn [settles failure]. rewrite asks_for_tools_decide.
    destruct (decide (stop_reason final = Some (lit "tool_use"))) as [E|E].
    + unfold handleToolUse.
      set (stop1 := send message_stop _ res1).
      assert (Hc : continues res1 stop1) by (by apply send_continues).
      pose proof (continues_no_end _ _ Hno1 Hc) as Hno1'. destruct Hc as [Hopen1' _].
      pose proof (run_tools_continues env (final_content final) (sv1, stop1, [])
                    Hopen1') as Hc2.
      destruct (foldl (run_tool env) (sv1, stop1, []) (final_content final))
        as [[svB res2] results]. simpl in Hc2.
      pose proof (continues_no_end _ _ Hno1' Hc2) as Hno2. destruct Hc2 as [Hopen2 _].
      by apply IH.
    + set (data := DMessageStop _ _ _ _).
      destruct (send_open message_stop data res1 Hopen1) as [Ew Hopen'].
      destruct (close_open _ Hopen') as [Ec Hend]. simpl.
      split; [|split; [done|done]].
      unfold tidy. rewrite Hend. eexists. split; [by rewrite Ec|].
      rewrite Ew. apply Forall_app. split; [done|]. by repeat constructor.
  - cbn [sendMessage settles failure].
    set (sv0 := set_inFlight _ _).
    pose proof (deliver_continues env ems sv0 res Hopen) as Hc.
    destruct (deliver env ems sv0 res) as [sv2 res2]. simpl in Hc.
    pose proof (continues_no_end _ _ Hno Hc) as Hno2. destruct Hc as [Hopen2 _].
    unfold onError. simpl.
    destruct (send_open error (DError m0 code0) res2 Hopen2) as [Ew Hopen'].
    destruct (close_open _ Hopen') as [Ec Hend].
    split; [|split; [done|]].
    + unfold tidy. rewrite Hend. eexists. split; [by rewrite Ec|].
      rewrite Ew. apply Forall_app. split; [done|]. by repeat constructor.
    + intros m code [= <- <-]. exists (written res2).
      by rewrite Ec, Ew, <- (assoc_L (++)).
  - cbn [sendMessage settles failure].
    set (sv0 := set_inFlight _ _).
    pose proof (deliver_continues env ems sv0 res Hopen) as Hc.
    destruct (deliver env ems sv0 res) as [sv2 res2]. simpl in Hc.
    pose proof (continues_no_end _ _ Hno Hc) as Hno2. destruct Hc as [Hopen2 _].
    simpl. unfold tidy. rewrite Hopen2. done.
Qed.

(** The store after an exchange that a failure ends: its newest block
    object is the error block. *)
Lemma sendMessage_failure_block env script msg sv res m code :
  failure script = Some (m, code) →
  ∃ b, last (Store.blockHeap (store (sendMessage env script msg sv res).1)) = Some b
       ∧ Store.block_type b = Store.ERROR
       ∧ Store.content b = m
       ∧ Store.isStreaming b = false.
Proof.
  revert msg sv res.
  induction script as [|turn rest IH]; intros msg sv res; [done|].
  destruct turn as [ems final|ems m0 code0|ems]; cbn [failure sendMessage]; [| |done].
  - rewrite asks_for_tools_decide.
    destruct (deliver _ _ _ _) as [sv2 res2].
    destruct (decide (stop_reason final = Some (lit "tool_use"))) as [E|E]; [|done].
    intros Hf. unfold handleToolUse.
    destruct (foldl (run_tool env) _ _) as [[svB resB] results]. by apply IH.
  - intros [= <- <-]. destruct (deliver _ _ _ _) as [sv2 res2]. simpl.
    eexists. split; [by rewrite last_snoc|done].
Qed.

(** X12.  The stream of a message is ended exactly when the exchange
    settles, that is when a turn completes without asking for tools or a
    turn fails, after any number of continuations; the end is then written
    once, as the last output; and until then the stream stays open. *)
Theorem X12_stream_ends_when_exchange_settles env script req msg sv :
  truthy (message req) = Some msg →
  isConfigured sv = true →
  ∃ res,
    (post env script req sv).2 = EventStream res
    ∧ writableEnded res = settles script
    ∧ closes res = (if settles script then 1 else 0)
    ∧ tidy res.
Proof.
  intros Hmsg Hconf. unfold post. rewrite Hmsg, Hconf.
  set (sv1 := match truthy (systemPrompt req) with Some _ => _ | None => _ end).
  set (res0 := send connected DConnected createSSEHandler).
  destruct (sendMessage_response env script msg sv1 res0)
    as (Ht & Hend & _); [done|by repeat constructor|].
  destruct (sendMessage env script msg sv1 res0) as [sv2 res2]. simpl in *.
  exists res2. split; [done|]. split; [done|]. split; [|done].
  by rewrite (tidy_closes _ Ht), Hend.
Qed.

(** X12 at the example exchange with its tool call, and at the turn that is
    still under way. *)
Lemma X12_witness :
  truthy (message (Examples.request "hi")) = Some (lit "hi")
  ∧ isConfigured Examples.server0 = true
  ∧ ∃ res,
      (post Examples.env [Examples.turn_under_way] (Examples.request "hi")
         Examples.server0).2 = EventStream res
      ∧ writableEnded res = settles [Examples.turn_under_way]
      ∧ closes res = (if settles [Examples.turn_under_way] then 1 else 0)
      ∧ tidy res.
Proof.
  exact (conj eq_refl (conj eq_refl
           (X12_stream_ends_when_exchange_settles Examples.env
              [Examples.turn_under_way] (Examples.request "hi") (lit "hi")
              Examples.server0 eq_refl eq_refl))).
Defined.

(** X13.  When a turn of the exchange fails, first or after continuations,
    the last event of the stream is the [error] event with the message and
    the code of the failure, the end of the stream follows it, and the
    newest block of the store is an error block with the message. *)
Theorem X13_failure_ends_the_exchange env script req msg sv m code :
  truthy (message req) = Some msg →
  isConfigured sv = true →
  failure script = Some (m, code) →
  ∃ sv' res evs b,
    post env script req sv = (sv', EventStream res)
    ∧ written res = evs ++ [Event error (DError m code); End_]
    ∧ last (Store.blockHeap (store sv')) = Some b
    ∧ Store.block_type b = Store.ERROR
    ∧ Store.content b = m
    ∧ Store.isStreaming b = false.
Proof.
  intros Hmsg Hconf Hfail. unfold post. rewrite Hmsg, Hconf.
  set (sv1 := match truthy (systemPrompt req) with Some _ => _ | None => _ end).
  set (res0 := send connected DConnected createSSEHandler).
  destruct (sendMessage_response env script msg sv1 res0)
    as (_ & _ & Hf); [done|by repeat constructor|].
  destruct (Hf m code Hfail) as (evs & Hw).
  destruct (sendMessage_failure_block env script msg sv1 res0 m code Hfail)
    as (b & Hb).
  destruct (sendMessage env script msg sv1 res0) as [sv2 res2]. simpl in *.
  by exists sv2, res2, evs, b.
Qed.

(** X13 at a failure of the continuation after the example's tool call. *)
Lemma X13_witness :
  truthy (message (Examples.request "hi")) = Some (lit "hi")
  ∧ isConfigured Examples.server0 = true
  ∧ failure [Completes Examples.tool_emissions Examples.tool_final;
             Fails [] (lit "overloaded") None]
    = Some (lit "overloaded", None)
  ∧ ∃ sv' res evs b,
      post Examples.env
        [Completes Examples.tool_emissions Examples.tool_final;
         Fails [] (lit "overloaded") None]
        (Examples.request "hi") Examples.server0
      = (sv', EventStream res)
      ∧ written res = evs ++ [Event error (DError (lit "overloaded") None); End_]
      ∧ last (Store.blockHeap (store sv')) = Some b
      ∧ Store.block_type b = Store.ERROR
      ∧ Store.content b = lit "overloaded"
      ∧ Store.isStreaming b = false.
Proof.
  exact (conj eq_refl (conj eq_refl (conj eq_refl
           (X13_failure_ends_the_exchange Examples.env
              [Completes Examples.tool_emissions Examples.tool_final;
               Fails [] (lit "overloaded") None]
              (Examples.request "hi") (lit "hi") Examples.server0
              (lit "overloaded") None eq_refl eq_refl eq_refl)))).
Defined.

End ExchangeOutcome.

Section ExchangeState.

Import Sse Chat.

(** *** Token totals and history of an exchange *)

(** The listeners leave the history and the token totals as they are. *)
Lemma on_emission_frame env x em :
  messages (on_emission env x em).1.2 = messages x.1.2
  ∧ totals (on_emission env x em).1.2 = totals x.1.2.
Proof.
  destruct x as [[loc sv] res].
  destruct em as [id model|[idx cb|idx d|idx|]]; simpl; try done.
  - by destruct cb.
  - destruct (truthy _); [|done].
    destruct d as [[|]|[|]|[|]|]; simpl; try done;
      unfold Store.appendToBlock; by destruct (Store.find_block _ _).
  - destruct (truthy _); [|done]. simpl.
    unfold Store.finalizeBlock; by destruct (Store.find_block _ _).
Qed.

Lemma deliver_frame env ems sv res :
  messages (deliver env ems sv res).1 = messages sv
  ∧ totals (deliver env ems sv res).1 = totals sv.
Proof.
  unfold deliver. generalize (mkLocals None None ∅). intros loc.
  change sv with ((loc, sv, res).1.2) at 2 4.
  generalize (loc, sv, res). clear. intros x.
  enough (messages (foldl (on_emission env) x ems).1.2 = messages x.1.2
          ∧ totals (foldl (on_emission env) x ems).1.2 = totals x.1.2) as H.
  { by destruct (foldl _ _ _) as [[? ?] ?]. }
  revert x. induction ems as [|em ems IH]; intros x; simpl; [done|].
  destruct (IH (on_emission env x em)) as [-> ->]. apply on_emission_frame.
Qed.

(** The tools add nothing to the history and leave the totals. *)
Lemma run_tools_frame env blocks x :
  messages (foldl (run_tool env) x blocks).1.1 = messages x.1.1
  ∧ totals (foldl (run_tool env) x blocks).1.1 = totals x.1.1.
Proof.
  revert x. induction blocks as [|b blocks IH]; intros x; simpl; [done|].
  destruct (IH (run_tool env x b)) as [-> ->].
  destruct x as [[sv res] results]. by destruct b.
Qed.

Lemma messages_push m sv : messages (push_message m sv) = messages sv ++ [m].
Proof. done. Qed.

Lemma totals_push m sv : totals (push_message m sv) = totals sv.
Proof. done. Qed.

Lemma strings_snoc_string ms s r :
  strings (ms ++ [mkMessage r (MString s)]) = strings ms ++ [s].
Proof. unfold strings. by rewrite omap_app. Qed.

Lemma strings_snoc_blocks ms bs r :
  strings (ms ++ [mkMessage r (MBlocks bs)]) = strings ms.
Proof. unfold strings. by rewrite omap_app, app_nil_r. Qed.

Lemma strings_snoc_results ms rs r :
  strings (ms ++ [mkMessage r (MToolResults rs)]) = strings ms.
Proof. unfold strings. by rewrite omap_app, app_nil_r. Qed.

Lemma sendMessage_state env script msg sv res :
  let sv' := (sendMessage env script msg sv res).1 in
  totals sv' = ((totals sv).1 + Z.of_N (usage script).1,
     (totals sv).2 + Z.of_N (usage script).2)%Z
  ∧ role <$> messages sv' = (role <$> messages sv) ++ roles script
  ∧ strings (messages sv')
    = strings (messages sv) ++ msg :: replicate (continuations script) [].
Proof.
  revert msg sv res.
  induction script as [|turn rest IH]; intros msg sv res.
  { cbn [sendMessage usage roles continuations].
    set (sv0 := set_inFlight _ _).
    assert (T0 : totals sv0 = totals sv) by done.
    assert (M0 : messages sv0 = messages sv ++ [mkMessage user (MString msg)]) by done.
    cbn [fst snd]. rewrite T0, M0. split; [|split].
    - destruct (totals sv) as [i o]. simpl. f_equal; lia.
    - by rewrite fmap_app.
    - by rewrite strings_snoc_string. }
  destruct turn as [ems final|ems m0 code0|ems];
    cbn [sendMessage usage roles continuations].
  - set (sv0 := set_inFlight _ _).
    assert (T0 : totals sv0 = totals sv) by done.
    assert (M0 : messages sv0 = messages sv ++ [mkMessage user (MString msg)]) by done.
    destruct (deliver_frame env ems sv0 res) as [Hm Ht].
    destruct (deliver env ems sv0 res) as [sv2 res2]. cbn [fst] in Hm, Ht.
    set (sv5 := push_message _ _). set (res4 := onMessageStop _ _ _ _ _).
    assert (T5 : totals sv5 = ((totals sv2).1 + Z.of_N (input_tokens final),
                               (totals sv2).2 + Z.of_N (output_tokens final))%Z)
      by done.
    assert (M5 : messages sv5
                 = messages sv2 ++ [mkMessage assistant (MBlocks (final_content final))])
      by done.
    rewrite asks_for_tools_decide.
    destruct (decide (stop_reason final = Some (lit "tool_use"))) as [E|E].
    + unfold handleToolUse.
      destruct (run_tools_frame env (final_content final) (sv5, res4, [])) as [Hm' Ht'].
      destruct (foldl (run_tool env) (sv5, res4, []) (final_content final))
        as [[svB resB] results]. cbn [fst] in Hm', Ht'.
      destruct (IH [] (push_message (mkMessage user (MToolResults results)) svB) resB)
        as (-> & -> & ->).
      rewrite totals_push, messages_push, Ht', Hm', T5, M5, Ht, Hm, T0, M0.
      split; [|split].
      * cbn [fst snd]. f_equal; lia.
      * rewrite !fmap_app. simpl. by rewrite <- !(assoc_L (++)).
      * rewrite strings_snoc_results, strings_snoc_blocks, strings_snoc_string.
        by rewrite <- (assoc_L (++)).
    + cbn [fst snd]. rewrite T5, M5, Ht, Hm, T0, M0. split; [|split].
      * cbn [fst snd]. f_equal; lia.
      * rewrite !fmap_app. simpl. by rewrite <- !(assoc_L (++)).
      * by rewrite strings_snoc_blocks, strings_snoc_string.
  - set (sv0 := set_inFlight _ _).
    assert (T0 : totals sv0 = totals sv) by done.
    assert (M0 : messages sv0 = messages sv ++ [mkMessage user (MString msg)]) by done.
    destruct (deliver_frame env ems sv0 res) as [Hm Ht].
    destruct (deliver env ems sv0 res) as [sv2 res2]. cbn [fst snd] in *.
    change (totals (with_store _ _ _)) with (totals sv2).
    change (messages (with_store _ _ _)) with (messages sv2).
    rewrite Ht, Hm, T0, M0. split; [|split].
    + destruct (totals sv) as [i o]. simpl. f_equal; lia.
    + by rewrite fmap_app.
    + by rewrite strings_snoc_string.
  - set (sv0 := set_inFlight _ _).
    assert (T0 : totals sv0 = totals sv) by done.
    assert (M0 : messages sv0 = messages sv ++ [mkMessage user (MString msg)]) by done.
    destruct (deliver_frame env ems sv0 res) as [Hm Ht].
    destruct (deliver env ems sv0 res) as [sv2 res2]. cbn [fst snd] in *.
    rewrite Ht, Hm, T0, M0. split; [|split].
    + destruct (totals sv) as [i o]. simpl. f_equal; lia.
    + by rewrite fmap_app.
    + by rewrite strings_snoc_string.
Qed.

(** X14.  An exchange adds to the token totals of the store the usage of
    each of its turns that completes, and nothing else: a turn that fails
    or is still under way counts for nothing. *)
Theorem X14_totals_add_the_usage env script msg sv res :
  totals (sendMessage env script msg sv res).1
  = ((totals sv).1 + Z.of_N (usage script).1,
     (totals sv).2 + Z.of_N (usage script).2)%Z.
Proof. apply sendMessage_state. Qed.

(** X15.  An exchange adds to the history the user's message, then for
    each turn that completes the assistant's message, and for each turn
    that asked for tools the message of the tool results followed by a user
    message whose content is the empty string: the continuation is sent as
    an empty message. *)
Theorem X15_history_of_an_exchange env script msg sv res :
  let sv' := (sendMessage env script msg sv res).1 in
  role <$> messages sv' = (role <$> messages sv) ++ roles script
  ∧ strings (messages sv')
    = strings (messages sv) ++ msg :: replicate (continuations script) [].
Proof. apply sendMessage_state. Qed.

End ExchangeState.

Section Initialization.

Import Sse Chat.

(** *** The store after [initialize] *)

Lemma addBlock_view e ty text md st :
  Store.context_ok st →
  Store.context_ok (Store.addBlock e ty text md st).1
  ∧ (λ b, (Store.block_type b, Store.content b, Store.isStreaming b))
    <$> Store.deref (Store.addBlock e ty text md st).1
          (Store.context (Store.addBlock e ty text md st).1)
    = ((λ b, (Store.block_type b, Store.content b, Store.isStreaming b))
       <$> Store.deref st (Store.context st)) ++ [(ty, text, false)].
Proof.
  intros Hok. destruct (push_deref
    (Store.mkBlock (Store.fresh_id e) ty text (Store.stamp e) md false
       (Height.Server.estimateHeight text)) (Store.bump e) st Hok) as [Hok' Hd].
  split; [done|]. simpl in *. by rewrite Hd, fmap_app.
Qed.

Lemma setTools_view now ts st :
  Store.context_ok st →
  Store.context_ok (Store.setTools now ts st).1
  ∧ (λ b, (Store.block_type b, Store.content b, Store.isStreaming b))
    <$> Store.deref (Store.setTools now ts st).1
          (Store.context (Store.setTools now ts st).1)
    = ((λ b, (Store.block_type b, Store.content b, Store.isStreaming b))
       <$> Store.deref st (Store.context st))
      ++ ((λ te, (Store.TOOL_DEFINITION, Store.tool_json te.1, false)) <$> ts).
Proof.
  intros Hok. unfold Store.setTools. set (st0 := Store.mkState _ _ _).
  assert (H0 : Store.context_ok (st0, @nil Store.addr).1
               ∧ (λ b, (Store.block_type b, Store.content b, Store.isStreaming b))
                 <$> Store.deref (st0, @nil Store.addr).1
                       (Store.context (st0, @nil Store.addr).1)
                 = (λ b, (Store.block_type b, Store.content b, Store.isStreaming b))
                   <$> Store.deref st (Store.context st)).
  { split; [|done]. destruct Hok as (arr & ? & ?). by exists arr. }
  revert H0. generalize (st0, @nil Store.addr). clear st0 Hok.
  generalize ((λ b, (Store.block_type b, Store.content b, Store.isStreaming b))
              <$> Store.deref st (Store.context st)). intros view.
  revert view. induction ts as [|te ts IH]; intros view acc [Hok Hview]; simpl.
  - by rewrite app_nil_r.
  - specialize (IH (view ++ [(Store.TOOL_DEFINITION, Store.tool_json te.1, false)])).
    rewrite <- (assoc_L (++)) in IH. apply IH.
    destruct (addBlock_view te.2 Store.TOOL_DEFINITION (Store.tool_json te.1)
                (Some {[ "toolName" := Store.VString (Store.tool_name te.1) ]})
                acc.1 Hok) as [Hok' Hs].
    rewrite <- Hview. split; [exact Hok'|exact Hs].
Qed.

Lemma initialize_shown env sv :
  Store.context_ok (store sv) →
  Store.context_ok (store (initialize env sv))
  ∧ shown (initialize env sv)
    = shown sv ++ initial_blocks (client_systemPrompt sv) (client_tools sv).
Proof.
  intros Hok. unfold initialize, shown. cbn [with_store store].
  unfold Store.setSystemPrompt.
  set (st0 := Store.mkState (Store.blockHeap (store sv)) _ _).
  assert (Hok0 : Store.context_ok st0) by (destruct Hok as (arr & ? & ?); by exists arr).
  destruct (addBlock_view (fresh env (tick sv + 1)) Store.SYSTEM
              (client_systemPrompt sv) None st0 Hok0) as [Hok1 Hs1].
  destruct (setTools_view (clock env (tick sv + 2))
              (imap (λ i t, (t, fresh env (tick sv + 3 + i))) (client_tools sv))
              _ Hok1) as [Hok2 Hs2].
  split; [exact Hok2|]. rewrite Hs2, Hs1.
  change (Store.deref st0 (Store.context st0))
    with (Store.deref (store sv) (Store.context (store sv))).
  rewrite <- (assoc_L (++)). f_equal. unfold initial_blocks. simpl. f_equal.
  rewrite fmap_imap. rewrite <- imap_const. by apply imap_ext.
Qed.

(** X16.  [setSystemPrompt] and [clear] of the client rebuild the store's
    context from nothing: a system block with the prompt, then one tool
    definition block for each tool of the client, in order, none of them
    streaming.  [clear] empties the history; [setSystemPrompt] keeps it. *)
Theorem X16_store_is_rebuilt env sv :
  (∀ prompt,
     shown (setSystemPrompt env prompt sv) = initial_blocks prompt (client_tools sv)
     ∧ messages (setSystemPrompt env prompt sv) = messages sv)
  ∧ shown (delete_context env sv).1
    = initial_blocks (client_systemPrompt sv) (client_tools sv)
  ∧ messages (delete_context env sv).1 = [].
Proof.
  split; [intros prompt; split; [|done]|split; [|done]].
  - unfold setSystemPrompt. set (sv0 := mkServer _ _ _ _ _ _ _).
    destruct (initialize_shown env sv0) as [_ ->]; [apply clear_context_ok|].
    unfold shown at 1. subst sv0. cbn [store]. by rewrite clear_deref.
  - unfold delete_context, clear. cbn [fst]. set (sv0 := mkServer _ _ _ _ _ _ _).
    destruct (initialize_shown env sv0) as [_ ->]; [apply clear_context_ok|].
    unfold shown at 1. subst sv0. cbn [store]. by rewrite clear_deref.
Qed.

(** X17.  [POST /api/context/initialize] clears, which already initializes
    the store with the client's previous prompt and tools, and then
    initializes again with the given ones: the context it returns has the
    blocks of both, two system blocks among them. *)
Theorem X17_initialize_route_initializes_twice env prompt tools sv :
  let sv' := (post_initialize env prompt tools sv).1 in
  shown sv'
  = initial_blocks (client_systemPrompt sv) (client_tools sv)
    ++ initial_blocks (default (client_systemPrompt sv) (truthy prompt))
         (default (client_tools sv) tools).
Proof.
  unfold post_initialize, initialize_with, clear. cbn [fst].
  set (sv0 := mkServer (Store.clear _ _ _) _ _ _ _ _ _).
  destruct (initialize_shown env sv0) as [Hok1 Hs1]; [apply clear_context_ok|].
  set (sv1 := initialize env sv0) in *.
  set (sv2 := mkServer (store sv1) _ _ _ _ _ _).
  destruct (initialize_shown env sv2) as [_ ->]; [exact Hok1|].
  change (shown sv2) with (shown sv1). rewrite Hs1.
  unfold shown at 1. subst sv0. cbn [store]. by rewrite clear_deref.
Qed.

(** *** The blocks a turn starts *)

Lemma started_snoc out ty data :
  started (out ++ [Event ty data])
  = started out ++ match data with
                   | DContentBlockStart id _ _ _ => [id]
                   | _ => []
                   end.
Proof. unfold started. rewrite omap_app. by destruct data. Qed.

Lemma on_emission_ids env x em :
  writableEnded x.2 = false →
  Store.context_ok (store x.1.2) →
  let x' := on_emission env x em in
  ∃ new,
    length new = (if is_start em then 1 else 0)
    ∧ writableEnded x'.2 = false
    ∧ Store.context_ok (store x'.1.2)
    ∧ Store.block_ids (store x'.1.2) = Store.block_ids (store x.1.2) ++ new
    ∧ started (written x'.2) = started (written x.2) ++ new.
Proof.
  destruct x as [[loc sv] res]. cbn [fst snd]. intros Hopen Hok.
  assert (Hnone : ∃ new : list jsstring,
            length new = 0 ∧ writableEnded res = false
            ∧ Store.context_ok (store sv)
            ∧ Store.block_ids (store sv) = Store.block_ids (store sv) ++ new
            ∧ started (written res) = started (written res) ++ new).
  { exists []. by rewrite !app_nil_r. }
  destruct em as [id model|[idx cb|idx d|idx|]]; cbn [on_emission on_stream_event is_start].
  - exists []. cbn [fst snd]. unfold onMessageStart, send. rewrite Hopen. simpl.
    by rewrite started_snoc, !app_nil_r.
  - set (e := fresh env (tick sv)).
    assert (∀ ty md name tid,
      let st := (Store.createStreamingBlock e ty md (store sv)).1 in
      ∃ new, length new = 1
        ∧ writableEnded (onContentBlockStart (Store.fresh_id e) ty name tid res) = false
        ∧ Store.context_ok st
        ∧ Store.block_ids st = Store.block_ids (store sv) ++ new
        ∧ started (written (onContentBlockStart (Store.fresh_id e) ty name tid res))
          = started (written res) ++ new) as Hstart.
    { intros ty md name tid. exists [Store.fresh_id e].
      destruct (exec_block_ids (Store.OpCreateStreamingBlock e ty md) (store sv) Hok)
        as [Hok' Hids].
      cbn [Store.exec Store.ids_after Store.is_clear Store.op_fresh_ids] in Hok', Hids.
      unfold onContentBlockStart, send. rewrite Hopen. simpl.
      by rewrite started_snoc. }
    destruct cb; apply Hstart.
  - destruct (truthy _) as [id|]; [|exact Hnone].
    assert (∀ delta, delta ≠ [] →
      ∃ new : list jsstring, length new = 0
        ∧ writableEnded (onContentBlockDelta id delta res) = false
        ∧ Store.context_ok (Store.appendToBlock (clock env (tick sv)) id delta (store sv)).1
        ∧ Store.block_ids (Store.appendToBlock (clock env (tick sv)) id delta (store sv)).1
          = Store.block_ids (store sv) ++ new
        ∧ started (written (onContentBlockDelta id delta res))
          = started (written res) ++ new) as Happ.
    { intros delta _. exists [].
      destruct (exec_block_ids (Store.OpAppendToBlock (clock env (tick sv)) id delta)
                  (store sv) Hok) as [Hok' Hids].
      cbn [Store.exec Store.ids_after Store.is_clear Store.op_fresh_ids] in Hok', Hids.
      unfold onContentBlockDelta, send. rewrite Hopen. simpl.
      rewrite ?app_nil_r in Hids. by rewrite started_snoc, !app_nil_r. }
    destruct d as [[|c t]|[|c t]|[|c t]|]; try exact Hnone;
      cbn [fst snd with_store store]; by apply Happ.
  - destruct (truthy _) as [id|]; [|exact Hnone]. exists [].
    destruct (exec_block_ids (Store.OpFinalizeBlock (clock env (tick sv)) id None)
                (store sv) Hok) as [Hok' Hids].
    cbn [Store.exec Store.ids_after Store.is_clear Store.op_fresh_ids] in Hok', Hids.
    cbn [fst snd]. unfold onContentBlockStop, send. rewrite Hopen. simpl.
    rewrite ?app_nil_r in Hids. by rewrite started_snoc, !app_nil_r.
  - exact Hnone.
Qed.

Lemma emissions_ids env ems x :
  writableEnded x.2 = false →
  Store.context_ok (store x.1.2) →
  ∃ ids,
    length ids = count_starts ems
    ∧ Store.block_ids (store (foldl (on_emission env) x ems).1.2)
      = Store.block_ids (store x.1.2) ++ ids
    ∧ started (written (foldl (on_emission env) x ems).2)
      = started (written x.2) ++ ids.
Proof.
  revert x. induction ems as [|em ems IH]; intros x Hopen Hok; simpl.
  - exists []. by rewrite !app_nil_r.
  - destruct (on_emission_ids env x em Hopen Hok)
      as (new & Hlen & Hopen' & Hok' & Hids & Hst).
    destruct (IH _ Hopen' Hok') as (ids & Hlen' & Hids' & Hst').
    exists (new ++ ids). rewrite Hids', Hst', Hids, Hst, !(assoc_L (++)).
    split; [|done]. rewrite length_app, Hlen, Hlen'. unfold count_starts.
    rewrite filter_cons. by destruct (is_start em).
Qed.

(** X18.  Each [content_block_start] of a turn creates one block of the
    store, and the event that announces it on the stream carries the id of
    that block: the ids announced during the turn are the ids of the blocks
    the store has gained, in the same order. *)
Theorem X18_started_blocks_are_announced env ems sv res :
  writableEnded res = false →
  Store.context_ok (store sv) →
  ∃ ids,
    length ids = count_starts ems
    ∧ Store.block_ids (store (deliver env ems sv res).1)
      = Store.block_ids (store sv) ++ ids
    ∧ started (written (deliver env ems sv res).2) = started (written res) ++ ids.
Proof.
  intros Hopen Hok. unfold deliver.
  destruct (emissions_ids env ems (mkLocals None None ∅, sv, res) Hopen Hok)
    as (ids & Hlen & Hids & Hst).
  exists ids. by destruct (foldl _ _ _) as [[? ?] ?].
Qed.

(** X18 at the example's first turn, which starts one block. *)
Lemma X18_witness :
  writableEnded createSSEHandler = false
  ∧ Store.context_ok (store Examples.server0)
  ∧ ∃ ids,
      length ids = count_starts Examples.tool_emissions
      ∧ Store.block_ids
          (store (deliver Examples.env Examples.tool_emissions Examples.server0
                    createSSEHandler).1)
        = Store.block_ids (store Examples.server0) ++ ids
      ∧ started (written (deliver Examples.env Examples.tool_emissions
                            Examples.server0 createSSEHandler).2)
        = started (written createSSEHandler) ++ ids.
Proof.
  exact (conj eq_refl (conj (constructor_context_ok (lit "c0") 0)
           (X18_started_blocks_are_announced Examples.env Examples.tool_emissions
              Examples.server0 createSSEHandler eq_refl
              (constructor_context_ok (lit "c0") 0)))).
Defined.

End Initialization.

(** ** Further properties of the search index *)

Section Tokens.

Import Search.

(** *** [tokenize] *)

Lemma tokenize_from_sound s pre word start pos w p :
  Forall (λ c, isWordChar c = true) word →
  from_option isWordChar false (last pre) = false →
  pos = length pre + length word →
  (word ≠ [] → start = length pre) →
  (w, p) ∈ tokenize_from s pos word start →
  is_token (pre ++ word ++ s) w p.
Proof.
  revert pre word start pos.
  induction s as [|c r IH]; intros pre word start pos Hword Hpre Hpos Hstart; simpl.
  - destruct word as [|d word']; [by intros ?%elem_of_nil|].
    intros Hin. apply list_elem_of_singleton in Hin. injection Hin as -> ->.
    split; [done|]. split; [done|]. exists pre, []. by rewrite Hstart.
  - destruct (isWordChar c) eqn:Hc.
    + intros Hin. replace (pre ++ word ++ c :: r) with (pre ++ (word ++ [c]) ++ r)
        by by rewrite <- (assoc_L (++) word).
      apply (IH pre (word ++ [c]) (match word with [] => pos | _ => start end) (S pos));
        [| | | |exact Hin].
      * apply Forall_app. split; [done|]. by apply Forall_singleton.
      * done.
      * rewrite length_app. simpl. lia.
      * intros _. destruct word; [simpl in Hpos; lia|]. by apply Hstart.
    + rewrite elem_of_app. intros [Hin|Hin].
      * destruct word as [|d word']; [by apply elem_of_nil in Hin|].
        apply list_elem_of_singleton in Hin. injection Hin as -> ->.
        split; [done|]. split; [done|]. exists pre, (c :: r). by rewrite Hstart.
      * replace (pre ++ word ++ c :: r) with ((pre ++ word ++ [c]) ++ [] ++ r)
          by by rewrite <- !(assoc_L (++)).
        apply (IH (pre ++ word ++ [c]) [] (S pos) (S pos)); [done| | |done|exact Hin].
        -- by rewrite (assoc_L (++)), last_snoc.
        -- rewrite !length_app. simpl. lia.
Qed.

Lemma tokenize_from_skip pre c rest pos word start x :
  isWordChar c = false →
  x ∈ tokenize_from rest (pos + length pre + 1) [] (pos + length pre + 1) →
  x ∈ tokenize_from (pre ++ c :: rest) pos word start.
Proof.
  intros Hc. revert pos word start.
  induction pre as [|d pre IH]; intros pos word start; simpl.
  - rewrite Hc, elem_of_app. replace (pos + 0 + 1) with (S pos) by lia. auto.
  - replace (pos + S (length pre) + 1) with (S pos + length pre + 1) by lia.
    intros Hin. destruct (isWordChar d).
    + by apply IH.
    + apply elem_of_app. right. by apply IH.
Qed.

Lemma tokenize_from_word w post pos word start :
  Forall (λ c, isWordChar c = true) w → w ≠ [] →
  from_option isWordChar false (head post) = false →
  (word ++ w, match word with [] => pos | _ => start end)
  ∈ tokenize_from (w ++ post) pos word start.
Proof.
  revert pos word start.
  induction w as [|c w IH]; intros pos word start Hw Hne Hpost; [done|].
  apply Forall_cons in Hw as [Hc Hw]. simpl. rewrite Hc.
  destruct w as [|d w'].
  - destruct post as [|e post']; simpl in *.
    + destruct (word ++ [c]) eqn:E; [by destruct word|]. apply list_elem_of_singleton.
      done.
    + rewrite Hpost. apply elem_of_app. left.
      destruct (word ++ [c]) eqn:E; [by destruct word|]. by apply list_elem_of_singleton.
  - specialize (IH (S pos) (word ++ [c])
                  (match word with [] => pos | _ => start end) Hw ltac:(done) Hpost).
    rewrite <- (assoc_L (++)) in IH. simpl in IH.
    by destruct word.
Qed.

(** X19.  The words [tokenize] reports are the maximal runs of word
    characters of the text, each with the position of its first unit: none
    is missed, none is cut short, and nothing else is reported. *)
Theorem X19_tokenize_maximal_runs s w p :
  (w, p) ∈ tokenize s ↔ is_token s w p.
Proof.
  split.
  - intros Hin. by apply (tokenize_from_sound s [] [] 0 0 w p).
  - intros (Hne & Hw & pre & post & -> & <- & Hpre & Hpost). unfold tokenize.
    pose proof (tokenize_from_word w post (length pre) [] (length pre) Hw Hne Hpost)
      as Hin. simpl in Hin.
    destruct (last pre) as [c|] eqn:Hlast.
    + apply last_Some in Hlast as [pre' ->]. simpl in Hpre.
      rewrite <- (assoc_L (++)). simpl.
      apply tokenize_from_skip; [done|]. rewrite length_app in *. simpl in *.
      revert Hin. generalize (length pre' + 1). intros n Hin.
      destruct w as [|d w']; [done|]. simpl in *.
      apply Forall_cons in Hw as [Hd _]. rewrite Hd in *. exact Hin.
    + apply last_None in Hlast as ->. exact Hin.
Qed.

End Tokens.

Section IndexFacts.

Import Search.

(** *** The maps *)

Lemma get_cons {V} k (kv : jsstring * V) m :
  JsMap.get k (kv :: m) = if decide (kv.1 = k) then Some kv.2 else JsMap.get k m.
Proof.
  unfold JsMap.get. simpl. case_decide; [done|].
  by destruct (list_find _ m) as [[? ?]|].
Qed.

Lemma get_set_eq {V} k (v : V) m : JsMap.get k (JsMap.set k v m) = Some v.
Proof.
  induction m as [|kv m IH]; simpl.
  - by rewrite get_cons, decide_True.
  - case_decide as Hk; rewrite get_cons; simpl.
    + by rewrite decide_True.
    + by rewrite decide_False.
Qed.

Lemma get_set_ne {V} k k' (v : V) m :
  k' ≠ k → JsMap.get k' (JsMap.set k v m) = JsMap.get k' m.
Proof.
  intros Hne. induction m as [|kv m IH]; simpl.
  - by rewrite get_cons, decide_False.
  - case_decide as Hk; rewrite !get_cons; simpl.
    + rewrite !decide_False; [done|congruence|done].
    + by rewrite IH.
Qed.

Lemma get_None {V} k (m : list (jsstring * V)) : k ∉ m.*1 → JsMap.get k m = None.
Proof.
  induction m as [|kv m IH]; [done|].
  rewrite fmap_cons, not_elem_of_cons, get_cons. intros [Hk Hm].
  rewrite decide_False by done. auto.
Qed.

Lemma delete_keys {V} k k' (m : list (jsstring * V)) :
  k' ∈ (JsMap.delete k m).*1 ↔ k' ≠ k ∧ k' ∈ m.*1.
Proof.
  unfold JsMap.delete. rewrite !list_elem_of_fmap. split.
  - intros (kv & -> & [? ?]%list_elem_of_filter). split; [done|]. by exists kv.
  - intros (Hne & kv & -> & Hin). exists kv. split; [done|].
    by apply list_elem_of_filter.
Qed.

Lemma get_delete_eq {V} k (m : list (jsstring * V)) :
  JsMap.get k (JsMap.delete k m) = None.
Proof. apply get_None. rewrite delete_keys. by intros [? _]. Qed.

Lemma get_delete_ne {V} k k' (m : list (jsstring * V)) :
  k' ≠ k → JsMap.get k' (JsMap.delete k m) = JsMap.get k' m.
Proof.
  intros Hne. unfold JsMap.delete. induction m as [|kv m IH]; [done|].
  rewrite get_cons. destruct (decide (kv.1 = k)) as [Hk|Hk].
  - rewrite filter_cons_False by auto. by rewrite decide_False by congruence.
  - rewrite filter_cons_True by done. by rewrite get_cons, IH.
Qed.

Lemma set_absent {V} k (v : V) m : k ∉ m.*1 → JsMap.set k v m = m ++ [(k, v)].
Proof.
  induction m as [|kv m IH]; [done|].
  rewrite fmap_cons, not_elem_of_cons. intros [Hk Hm]. simpl.
  rewrite decide_False by done. by rewrite IH.
Qed.

Lemma set_middle {V} k (v v' : V) pre suf :
  k ∉ pre.*1 → JsMap.set k v' (pre ++ (k, v) :: suf) = pre ++ (k, v') :: suf.
Proof.
  induction pre as [|kv pre IH]; simpl.
  - by rewrite decide_True.
  - rewrite not_elem_of_cons. intros [Hk Hpre]. rewrite decide_False by done.
    by rewrite IH.
Qed.

Lemma delete_middle {V} k (v : V) pre suf :
  k ∉ pre.*1 → k ∉ suf.*1 →
  JsMap.delete k (pre ++ (k, v) :: suf) = pre ++ suf.
Proof.
  intros Hpre Hsuf. unfold JsMap.delete.
  assert (∀ m : list (jsstring * V), k ∉ m.*1 → filter (λ kv, kv.1 ≠ k) m = m) as Hid.
  { intros m. induction m as [|kv m IH]; [done|].
    rewrite fmap_cons, not_elem_of_cons. intros [? ?].
    rewrite filter_cons, decide_True by done. by rewrite IH. }
  rewrite filter_app, filter_cons, decide_False by (simpl; auto).
  by rewrite !Hid.
Qed.

(** *** [removeBlock] *)

Lemma without_keys id m : (omap (without id) m).*1 ⊆ m.*1.
Proof.
  induction m as [|we m IH]; [done|]. simpl. unfold without at 1.
  case_decide; simpl.
  - intros k Hk. right. by apply IH.
  - intros k. rewrite !elem_of_cons. intros [?|?]; auto.
Qed.

Lemma without_NoDup id m : NoDup m.*1 → NoDup (omap (without id) m).*1.
Proof.
  induction m as [|we m IH]; [done|]. rewrite fmap_cons, NoDup_cons.
  intros [Hwe Hm]. simpl. unfold without at 1. case_decide; simpl; [auto|].
  rewrite NoDup_cons. split; [|auto]. intros Hin. by apply without_keys in Hin.
Qed.

(** The loop of [removeBlock], word by word: the words seen so far are
    [pre], already without the block. *)
Lemma removeBlock_loop id pre suf :
  NoDup (pre ++ suf).*1 →
  foldl
    (λ idx we,
       let filtered := filter (λ e, entry_blockId e ≠ id) we.2 in
       if decide (length filtered = 0) then JsMap.delete we.1 idx
       else if decide (length filtered ≠ length we.2)
            then JsMap.set we.1 filtered idx
            else idx)
    (pre ++ suf) suf
  = pre ++ omap (without id) suf.
Proof.
  revert pre. induction suf as [|[w es] suf IH]; intros pre Hnd; simpl.
  - done.
  - rewrite fmap_app, fmap_cons in Hnd. simpl in Hnd.
    apply NoDup_app in Hnd as (Hpre & Hdisj & Hsuf).
    apply NoDup_cons in Hsuf as [Hw Hsuf].
    assert (w ∉ pre.*1) as Hwpre.
    { intros Hin. apply (Hdisj w Hin). by left. }
    unfold without at 1. simpl.
    set (filtered := filter (λ e, entry_blockId e ≠ id) es).
    assert (∀ v, NoDup ((pre ++ [(w, v)]) ++ suf).*1) as Hnd'.
    { intros v. rewrite <- (assoc_L (++)). simpl. rewrite fmap_app, fmap_cons. simpl.
      apply NoDup_app. split; [done|]. split; [done|]. by apply NoDup_cons. }
    destruct (decide (filtered = [])) as [Hf|Hf].
    + rewrite (decide_True (P := length filtered = 0)) by by rewrite Hf.
      rewrite delete_middle by done. apply IH.
      rewrite fmap_app. apply NoDup_app. split; [done|]. split; [|done].
      intros k Hk Hk'. apply (Hdisj k Hk). by right.
    + rewrite (decide_False (P := length filtered = 0))
        by (by intros ?%length_zero_iff_nil).
      specialize (IH (pre ++ [(w, filtered)]) (Hnd' filtered)).
      rewrite <- !(assoc_L (++)) in IH. simpl in IH.
      destruct (decide (length filtered = length es)) as [Hlen|Hlen].
      * rewrite (decide_False (P := length filtered ≠ length es)) by auto.
        assert (filtered = es) as Hsame.
        { subst filtered. clear -Hlen. induction es as [|e es IH]; [done|].
          destruct (decide (entry_blockId e = id)) as [He|He].
          - rewrite filter_cons_False in * by auto. simpl in *.
            pose proof (length_filter (λ e, entry_blockId e ≠ id) es). lia.
          - rewrite filter_cons_True in * by done. simpl in *.
            f_equal. apply IH. lia. }
        rewrite Hsame in IH |- *. exact IH.
      * rewrite (decide_True (P := length filtered ≠ length es)) by done.
        rewrite set_middle by done. exact IH.
Qed.

Lemma removeBlock_index id si :
  NoDup (index si).*1 →
  index (removeBlock id si) = omap (without id) (index si).
Proof. intros Hnd. exact (removeBlock_loop id [] (index si) Hnd). Qed.

Lemma get_without id w m :
  NoDup m.*1 →
  default [] (JsMap.get w (omap (without id) m))
  = filter (λ e, entry_blockId e ≠ id) (default [] (JsMap.get w m)).
Proof.
  induction m as [|[w' es] m IH]; [done|].
  rewrite fmap_cons, NoDup_cons, get_cons. simpl. intros [Hw' Hm].
  unfold without at 1. simpl.
  destruct (decide (filter (λ e, entry_blockId e ≠ id) es = [])) as [Hf|Hf];
    destruct (decide (w' = w)) as [Hw|Hw]; simpl.
  - subst w'. rewrite get_None, Hf; [done|]. intros Hin. by apply without_keys in Hin.
  - by apply IH.
  - by rewrite get_cons, decide_True.
  - rewrite get_cons, decide_False by done. by apply IH.
Qed.

Lemma entry_positions_filter id id' es :
  entry_positions id' (filter (λ e, entry_blockId e ≠ id) es)
  = if decide (id' = id) then [] else entry_positions id' es.
Proof.
  unfold entry_positions. induction es as [|e es IH]; [by case_decide|].
  destruct (decide (entry_blockId e = id)) as [He|He].
  - rewrite filter_cons_False by auto. rewrite IH. simpl.
    destruct (decide (id' = id)) as [->|Hid]; [done|].
    rewrite decide_False by congruence.
    by destruct (list_find _ es) as [[? ?]|].
  - rewrite filter_cons_True by done. simpl.
    destruct (decide (entry_blockId e = id')) as [He'|He'].
    + by rewrite decide_False by congruence.
    + destruct (list_find _ (filter _ es)) as [[? ?]|],
               (list_find _ es) as [[? ?]|]; simpl in *; by case_decide.
Qed.

Lemma removeBlock_postings id si w id' :
  NoDup (index si).*1 →
  postings (index (removeBlock id si)) w id'
  = if decide (id' = id) then [] else postings (index si) w id'.
Proof.
  intros Hnd. unfold postings.
  by rewrite removeBlock_index, get_without, entry_positions_filter.
Qed.

(** *** [indexBlock] *)

Lemma entry_positions_push id id' p i e es :
  list_find (λ e, entry_blockId e = id) es = Some (i, e) →
  entry_positions id'
    (alter (λ e, mkEntry (entry_blockId e) (positions e ++ [p])) i es)
  = entry_positions id' es ++ (if decide (id' = id) then [p] else []).
Proof.
  unfold entry_positions. revert i. induction es as [|e' es IH]; intros i; [done|].
  simpl. destruct (decide (entry_blockId e' = id)) as [He'|He'].
  - intros Hi. assert (i = 0) as -> by congruence. assert (e = e') as -> by congruence.
    simpl. destruct (decide (entry_blockId e' = id')) as [Hid|Hid]; simpl.
    + by rewrite decide_True by congruence.
    + rewrite decide_False by congruence.
      destruct (list_find _ es) as [[? ?]|]; simpl; by rewrite app_nil_r.
  - destruct (list_find (λ e0, entry_blockId e0 = id) es) as [[j e'']|] eqn:Hf; [|done].
    intros Hi. simplify_eq/=. specialize (IH j eq_refl).
    destruct (decide (entry_blockId e' = id')) as [Hid|Hid]; simpl.
    + rewrite decide_False by congruence. by rewrite app_nil_r.
    + destruct (list_find _ (alter _ j es)) as [[? ?]|],
               (list_find (λ e0, entry_blockId e0 = id') es) as [[? ?]|];
        simpl in *; done.
Qed.

Lemma entry_positions_new id id' p es :
  list_find (λ e, entry_blockId e = id) es = None →
  entry_positions id' (es ++ [mkEntry id [p]])
  = entry_positions id' es ++ (if decide (id' = id) then [p] else []).
Proof.
  unfold entry_positions. induction es as [|e' es IH]; simpl.
  - intros _. destruct (decide (id = id')) as [->|Hid]; simpl.
    + by rewrite decide_True.
    + by rewrite decide_False by congruence.
  - destruct (decide (entry_blockId e' = id)) as [He'|He']; [done|].
    destruct (list_find (λ e0, entry_blockId e0 = id) es) as [[j e'']|] eqn:Hf; [done|].
    intros _. specialize (IH eq_refl).
    destruct (decide (entry_blockId e' = id')) as [Hid|Hid]; simpl.
    + rewrite decide_False by congruence. by rewrite app_nil_r.
    + destruct (list_find _ (es ++ _)) as [[? ?]|],
               (list_find (λ e0, entry_blockId e0 = id') es) as [[? ?]|];
        simpl in *; done.
Qed.

Lemma add_posting_postings id idx wp w id' :
  postings (add_posting id idx wp) w id'
  = postings idx w id'
    ++ (if decide (id' = id) then (filter (λ x, x.1 = w) [wp]).*2 else []).
Proof.
  unfold postings, add_posting.
  assert ((if decide (id' = id) then (filter (λ x, x.1 = w) [wp]).*2 else [])
          = if decide (wp.1 = w) then (if decide (id' = id) then [wp.2] else []) else [])
    as ->.
  { rewrite filter_cons, filter_nil. by repeat case_decide. }
  destruct (list_find _ (default [] (JsMap.get wp.1 idx))) as [[i e]|] eqn:Hf.
  - case_decide as Hw.
    + subst w. rewrite get_set_eq. simpl. by apply entry_positions_push with e.
    + rewrite get_set_ne by done. by rewrite app_nil_r.
  - case_decide as Hw.
    + subst w. rewrite get_set_eq. simpl. by apply entry_positions_new.
    + rewrite get_set_ne by done. by rewrite app_nil_r.
Qed.

Lemma add_postings id words idx w id' :
  postings (foldl (add_posting id) idx words) w id'
  = postings idx w id'
    ++ (if decide (id' = id) then (filter (λ x, x.1 = w) words).*2 else []).
Proof.
  revert idx. induction words as [|wp words IH]; intros idx; simpl.
  - case_decide; by rewrite app_nil_r.
  - rewrite IH, add_posting_postings, <- (assoc_L (++)). f_equal.
    case_decide; [|done]. rewrite (filter_cons _ wp words).
    rewrite filter_cons, filter_nil. by case_decide.
Qed.

Lemma add_posting_NoDup id idx wp : NoDup idx.*1 → NoDup (add_posting id idx wp).*1.
Proof.
  intros Hnd. unfold add_posting.
  destruct (list_find _ _) as [[? ?]|]; by apply set_NoDup.
Qed.

Lemma add_postings_NoDup id words idx :
  NoDup idx.*1 → NoDup (foldl (add_posting id) idx words).*1.
Proof.
  revert idx. induction words as [|wp words IH]; intros idx Hnd; simpl; [done|].
  by apply IH, add_posting_NoDup.
Qed.

Lemma removeBlock_NoDup id si :
  NoDup (index si).*1 → NoDup (index (removeBlock id si)).*1.
Proof. intros Hnd. rewrite removeBlock_index by done. by apply without_NoDup. Qed.

(** The index agrees with the retained contents, and no word is twice in
    it. *)
Lemma exec_agrees op si :
  (NoDup (index si).*1
   ∧ ∀ w id, postings (index si) w id
             = word_positions w (default [] (JsMap.get id (blockContents si)))) →
  NoDup (index (exec op si)).*1
  ∧ ∀ w id, postings (index (exec op si)) w id
            = word_positions w (default [] (JsMap.get id (blockContents (exec op si)))).
Proof.
  intros [Hnd Hag]. destruct op as [id text|id|]; cbn [exec].
  - unfold indexBlock. cbn [index blockContents].
    split; [by apply add_postings_NoDup, removeBlock_NoDup|].
    intros w id'. rewrite add_postings, removeBlock_postings by done.
    unfold removeBlock at 1. cbn [blockContents].
    destruct (decide (id' = id)) as [->|Hid].
    + by rewrite get_set_eq.
    + rewrite app_nil_r, get_set_ne, get_delete_ne by done. apply Hag.
  - split; [by apply removeBlock_NoDup|].
    intros w id'. rewrite removeBlock_postings by done.
    unfold removeBlock at 1. cbn [blockContents].
    destruct (decide (id' = id)) as [->|Hid].
    + by rewrite get_delete_eq.
    + rewrite get_delete_ne by done. apply Hag.
  - split; [apply NoDup_nil_2|done].
Qed.

(** X20.  After any sequence of index operations on the empty index, the
    positions the index holds for a word in a block are the positions at
    which that word starts in the lower-cased content retained for the
    block, in order; for a block that is not retained it holds none. *)
Theorem X20_index_agrees_with_contents ops w id :
  postings (index (run ops empty)) w id
  = word_positions w (default [] (JsMap.get id (blockContents (run ops empty)))).
Proof.
  enough (NoDup (index (run ops empty)).*1
          ∧ ∀ w id, postings (index (run ops empty)) w id
                    = word_positions w
                        (default [] (JsMap.get id (blockContents (run ops empty)))))
    as [_ H] by apply H.
  assert (NoDup (index empty).*1
          ∧ ∀ w id, postings (index empty) w id
                    = word_positions w (default [] (JsMap.get id (blockContents empty))))
    as H0 by (split; [apply NoDup_nil_2|done]).
  revert H0. generalize empty. unfold run.
  induction ops as [|op ops IH]; intros si Hsi; simpl; [done|].
  by apply IH, exec_agrees.
Qed.

(** *** The order of the results *)

Lemma search_block_id query kv :
  Forall (λ m, blockId m = kv.1) (search_block query kv).
Proof.
  apply Forall_forall. intros m Hm. unfold search_block in Hm.
  by destruct (scan_sound _ _ _ _ _ _ _ _ Hm) as (i & _ & _ & ->).
Qed.

Lemma filter_block_other query id kv :
  kv.1 ≠ id →
  filter (λ x, blockId x ≠ id) (search_block query kv) = search_block query kv.
Proof.
  intros Hk. pose proof (search_block_id query kv) as Hid.
  induction Hid as [|m ms Hm _ IH]; [done|].
  rewrite filter_cons_True by congruence. by rewrite IH.
Qed.

Lemma filter_block_same query id kv :
  kv.1 = id → filter (λ x, blockId x ≠ id) (search_block query kv) = [].
Proof.
  intros Hk. pose proof (search_block_id query kv) as Hid.
  induction Hid as [|m ms Hm _ IH]; [done|].
  rewrite filter_cons_False by (intros Hne; congruence). exact IH.
Qed.

Lemma search_delete query id m :
  JsMap.delete id m ≫= search_block query
  = filter (λ x, blockId x ≠ id) (m ≫= search_block query).
Proof.
  unfold JsMap.delete. induction m as [|kv m IH]; [done|].
  rewrite bind_cons, filter_app, <- IH.
  destruct (decide (kv.1 = id)) as [Hk|Hk].
  - rewrite filter_cons_False by auto. by rewrite filter_block_same.
  - rewrite filter_cons_True, bind_cons by done. by rewrite filter_block_other.
Qed.

(** X21.  Removing a block removes its matches from the results of
    [search] and leaves the others in their order; indexing a block, new or
    already known, puts its matches after those of all other blocks. *)
Theorem X21_results_follow_the_last_indexing query id text si :
  search query (removeBlock id si)
  = filter (λ m, blockId m ≠ id) (search query si)
  ∧ search query (indexBlock id text si)
    = filter (λ m, blockId m ≠ id) (search query si)
      ++ search query (indexBlock id text empty).
Proof.
  unfold search. case_decide as Ht; [done|]. simpl. split.
  - apply search_delete.
  - rewrite set_absent by (rewrite delete_keys; by intros [? _]).
    by rewrite bind_app, search_delete.
Qed.

End IndexFacts.

(** ** Further properties of the virtual window *)

Section WindowFacts.

Import VirtualWindow.

Lemma length_visibleBlocks {A} (blocks : list A) scrollTop viewportHeight :
  Z.of_nat (length (visibleBlocks blocks scrollTop viewportHeight))
  = Z.max 0 (endIndex (Z.of_nat (length blocks)) scrollTop viewportHeight
             - startIndex scrollTop).
Proof.
  unfold visibleBlocks, slice. rewrite length_take, length_drop.
  rewrite startIndex_eq, endIndex_eq. lia.
Qed.

(** X22.  However many blocks there are, the viewer renders at most as
    many as fit the viewport at 100 pixels each, and eleven more; the
    [i]-th of them is the block at [startIndex + i]. *)
Theorem X22_window_size_is_bounded {A} (blocks : list A) scrollTop viewportHeight :
  (0 ≤ scrollTop)%Z → (0 ≤ viewportHeight)%Z →
  (Z.of_nat (length (visibleBlocks blocks scrollTop viewportHeight))
   ≤ (viewportHeight + 99) `div` 100 + 11)%Z
  ∧ ∀ i, i < length (visibleBlocks blocks scrollTop viewportHeight) →
      visibleBlocks blocks scrollTop viewportHeight !! i
      = blocks !! (Z.to_nat (startIndex scrollTop) + i).
Proof.
  intros Hs Hv. split.
  - rewrite length_visibleBlocks, startIndex_eq, endIndex_eq.
    Z.to_euclidean_division_equations. lia.
  - intros i Hi. unfold visibleBlocks, slice in *.
    rewrite length_take in Hi. rewrite lookup_take_lt by lia. by rewrite lookup_drop.
Qed.

Lemma X22_witness :
  (0 ≤ 250)%Z ∧ (0 ≤ 300)%Z
  ∧ (Z.of_nat (length (visibleBlocks (seq 0 40) 250 300)) ≤ (300 + 99) `div` 100 + 11)%Z
  ∧ ∀ i, i < length (visibleBlocks (seq 0 40) 250 300) →
      visibleBlocks (seq 0 40) 250 300 !! i
      = seq 0 40 !! (Z.to_nat (startIndex 250) + i).
Proof.
  split; [lia|]. split; [lia|].
  apply (X22_window_size_is_bounded (seq 0 40) 250 300); lia.
Defined.

(** X23.  While the first rendered index is within the list, the two
    spacers and 100 pixels for each rendered block add up to the total
    height, so the scroll extent does not depend on the scroll position.
    Once the list is shorter than the first rendered index, nothing is
    rendered and the top spacer alone is higher than the total height. *)
Theorem X23_spacers_fill_the_total_height {A} (blocks : list A)
    scrollTop viewportHeight :
  (0 ≤ scrollTop)%Z → (0 ≤ viewportHeight)%Z →
  let n := Z.of_nat (length blocks) in
  let rendered := Z.of_nat (length (visibleBlocks blocks scrollTop viewportHeight)) in
  ((startIndex scrollTop ≤ n)%Z →
     (topPadding scrollTop + rendered * ITEM_HEIGHT_ESTIMATE
      + bottomPadding n scrollTop viewportHeight = totalHeight n)%Z)
  ∧ ((n < startIndex scrollTop)%Z →
     visibleBlocks blocks scrollTop viewportHeight = []
     ∧ bottomPadding n scrollTop viewportHeight = 0%Z
     ∧ (totalHeight n < topPadding scrollTop)%Z).
Proof.
  intros Hs Hv n rendered. subst rendered.
  pose proof (length_visibleBlocks blocks scrollTop viewportHeight) as Hlen.
  fold n in Hlen. revert Hlen.
  unfold topPadding, bottomPadding, totalHeight, ITEM_HEIGHT_ESTIMATE.
  rewrite startIndex_eq, endIndex_eq.
  generalize (length (visibleBlocks blocks scrollTop viewportHeight)).
  intros k Hk. split.
  - intros Hin. Z.to_euclidean_division_equations. lia.
  - intros Hout. split; [|split].
    + apply length_zero_iff_nil.
      pose proof (length_visibleBlocks blocks scrollTop viewportHeight) as Hlen.
      fold n in Hlen. rewrite startIndex_eq, endIndex_eq in Hlen.
      Z.to_euclidean_division_equations. lia.
    + Z.to_euclidean_division_equations. lia.
    + lia.
Qed.

Lemma X23_witness :
  (0 ≤ 250)%Z ∧ (0 ≤ 300)%Z
  ∧ ((startIndex 250 ≤ 40)%Z →
     (topPadding 250
      + Z.of_nat (length (visibleBlocks (seq 0 40) 250 300)) * ITEM_HEIGHT_ESTIMATE
      + bottomPadding 40 250 300 = totalHeight 40)%Z)
  ∧ ((40 < startIndex 250)%Z →
     visibleBlocks (seq 0 40) 250 300 = []
     ∧ bottomPadding 40 250 300 = 0%Z
     ∧ (totalHeight 40 < topPadding 250)%Z).
Proof.
  split; [lia|]. split; [lia|].
  apply (X23_spacers_fill_the_total_height (seq 0 40) 250 300); lia.
Defined.

End WindowFacts.
